(** * d_zip.h: the zip view of DXX-Rebirth, embedded and verified

    Source: [common/main/d_zip.h].

    The header builds, from N borrowed ranges, a forward-iterable view whose
    elements are N-tuples of references.  Everything the header decides with
    templates (the selector mask, the shape of the sentinel, the static-size
    check) is decided here by ordinary functions over the template arguments:

    - a template parameter pack is a [list]; a [std::index_sequence<N...>]
      expansion over it is an indexed map ([imap]) or a fold over the
      indices;
    - the selector [zip_sequence_length_selector] (an enum over [uint32_t])
      is a [Z]; the cast to [uint32_t] and the shift [1u << N] are written
      with their wrap-around;
    - a static size is either [integral_constant n] or [nullptr_t];
    - a template that fails to instantiate (an unsatisfied requires-clause,
      a missing specialisation) returns [None];
    - a range is a list of elements with what the type system knows of
      its size (nothing, its length, or a [std::tuple_size] of its own); a
      range iterator is the list it walks together with an offset.  Advancing is defined on every offset; reading is defined only
      inside the list, so that a read past the end (undefined behaviour in
      the source) is visible as [None].

    The ranges of one zip may have different element types in the source;
    here they share one element type [A], which no property below depends
    on.  The requirements that concern types only ([borrowed_range] in the
    deduction guides, the common [index_type] computed by
    [range_index_type]) are taken as met: they select no behaviour.  The
    difference of two positions is an integer without bound. *)

From stdpp Require Import base numbers option list.

Local Open Scope Z_scope.

(** [static_cast<uint32_t>] and arithmetic on [uint32_t]. *)
Definition uint32 (z : Z) : Z := z mod 2 ^ 32.

(** [enum class zip_sequence_length_selector : uint32_t]. *)
Abbreviation zip_sequence_length_selector := Z (only parsing).

(** [std::integral_constant<std::size_t, N>] or [std::nullptr_t]: what
    [decltype(get_static_size(r))] can be. *)
Inductive static_size : Type :=
  | integral_constant (value : nat)
  | nullptr_t.

#[global] Instance static_size_eq_dec : EqDecision static_size.
Proof. solve_decision. Defined.

Section ranges.
Context {A : Type}.

(** The shapes of range that [get_static_size] tells apart: a C array
    [T[N]]; a type with [std::tuple_size], which is a [std::array<T, N>],
    whose tuple size is its number of elements, or any other tuple-like
    range, whose tuple size is a number of its own (a
    [std::ranges::subrange] has tuple size 2 whatever it holds); and any
    other range (a span, a vector, ...). *)
Inductive range : Type :=
  | c_array (elements : list A)
  | std_array (elements : list A)
  | tuple_like (tuple_size : nat) (elements : list A)
  | dynamic_range (elements : list A).

Definition range_elements (r : range) : list A :=
  match r with
  | c_array l | std_array l | tuple_like _ l | dynamic_range l => l
  end.

(** An iterator into a range: the elements it walks and its offset from
    the start. *)
Record range_iterator : Type := RangeIterator {
  underlying : list A;
  offset : nat
}.

(** [std::begin(r)] *)
Definition range_begin (r : range) : range_iterator :=
  RangeIterator (range_elements r) 0.

(** [std::ranges::end(r)] *)
Definition range_end (r : range) : range_iterator :=
  RangeIterator (range_elements r) (length (range_elements r)).

(** [++it] *)
Definition range_iterator_incr (it : range_iterator) : range_iterator :=
  RangeIterator (underlying it) (S (offset it)).

(** [*it]: [None] when the iterator does not point at an element. *)
Definition range_iterator_deref (it : range_iterator) : option A :=
  underlying it !! offset it.

(** [l == r] on two iterators into the same range. *)
Definition range_iterator_eqb (l r : range_iterator) : bool :=
  (offset l =? offset r)%nat.

(** [l - r] on two iterators into the same range, a [difference_type]. *)
Definition range_iterator_sub (l r : range_iterator) : Z :=
  Z.of_nat (offset l) - Z.of_nat (offset r).
End ranges.

Arguments range : clear implicits.
Arguments range_iterator : clear implicits.

Module d_zip.
Module detail.

(** [examine_zip_element<examine_end_range, N>::value] *)
Definition examine_zip_element
    (examine_end_range : zip_sequence_length_selector) (N : nat) : bool :=
  (N <? 32)%nat
  && negb (Z.land (uint32 examine_end_range)
                  (uint32 (Z.shiftl 1 (Z.of_nat N))) =? 0).

(** [get_static_size]: the three overloads, in the order of the source.
    The second one returns [std::tuple_size<T>::type] for every range that
    has one. *)
Definition get_static_size {A} (r : range A) : static_size :=
  match r with
  | c_array l => integral_constant (length l)
  | std_array l => integral_constant (length l)
  | tuple_like tuple_size _ => integral_constant tuple_size
  | dynamic_range _ => nullptr_t
  end.

(** [get_examined_static_size<examine_end_range>]: keep the static size
    of the selected indices, [nullptr_t] elsewhere. *)
Definition get_examined_static_size
    (examine_end_range : zip_sequence_length_selector)
    (sizeN : list static_size) : list static_size :=
  imap (fun indexN size =>
          if examine_zip_element examine_end_range indexN
          then size else nullptr_t) sizeN.

(** The recursion of [minimum_static_size<std::tuple<size0, sizeN...>>]
    on its first element and the rest of the pack.  The four partial
    specialisations are the four branches. *)
Fixpoint minimum_static_size_from
    (size0 : static_size) (sizeN : list static_size) : static_size :=
  match sizeN with
  | [] => size0
  | size1 :: sizeN' =>
      match size0, size1 with
      | nullptr_t, _ => minimum_static_size_from size1 sizeN'
      | integral_constant _, nullptr_t =>
          minimum_static_size_from size0 sizeN'
      | integral_constant v0, integral_constant v1 =>
          minimum_static_size_from
            (if (v0 <? v1)%nat then size0 else size1) sizeN'
      end
  end.

(** [minimum_static_size<std::tuple<sizeN...>>::type].  The primary
    template is declared and never defined, so the empty tuple has no
    [type]. *)
Definition minimum_static_size (sizes : list static_size)
    : option static_size :=
  match sizes with
  | [] => None
  | size0 :: sizeN => Some (minimum_static_size_from size0 sizeN)
  end.

(** The element types of a sentinel: the range's end iterator, or the
    type of [std::ignore]. *)
Inductive end_type : Type :=
  | range_end_type
  | ignore_type.

(** [iterator_element_end_type<element_selected, range_type>()] *)
Definition iterator_element_end_type (element_selected : bool) : end_type :=
  if element_selected then range_end_type else ignore_type.

(** [iterator_end_type<mask>(std::tuple<range_type...>,
    std::index_sequence<range_index...>)]: the element types of the
    sentinel.  The requires-clause rejects the empty mask; the index
    sequence is always the one of the pack, so the two lengths agree. *)
Definition iterator_end_type {A}
    (mask : zip_sequence_length_selector) (range_type : list (range A))
    : option (list end_type) :=
  if negb (mask =? 0)
  then Some (imap (fun range_index _ =>
                     iterator_element_end_type
                       (examine_zip_element mask range_index))
                  range_type)
  else None.

(** An element of a [zip_sentinel]: an end iterator, or [std::ignore]. *)
Inductive sentinel_element {A} : Type :=
  | end_iterator (e : range_iterator A)
  | ignore.
Arguments sentinel_element : clear implicits.

(** [capture_end_iterator<end_iterator_type>(r)] *)
Definition capture_end_iterator {A}
    (end_iterator_type : end_type) (r : range A) : sentinel_element A :=
  match end_iterator_type with
  | ignore_type => ignore
  | range_end_type => end_iterator (range_end r)
  end.

(** [capture_end_iterators<sentinel_type>(std::index_sequence<N...>, r...)] *)
Definition capture_end_iterators {A}
    (sentinel_type : list end_type) (r : list (range A))
    : list (sentinel_element A) :=
  zip_with capture_end_iterator sentinel_type r.

(** [increment_iterator(iterator, std::index_sequence<N...>)] *)
Definition increment_iterator {A}
    (iterator : list (range_iterator A)) : list (range_iterator A) :=
  range_iterator_incr <$> iterator.

(** [dereference_iterator(iterator, std::index_sequence<N...>)]: the
    tuple of the elements the components point at; [None] when some
    component is read outside its range. *)
Definition dereference_iterator {A}
    (iterator : list (range_iterator A)) : option (list A) :=
  mapM range_iterator_deref iterator.

(** [std::get<N>(l) == std::get<N>(r)] between an iterator and a
    sentinel.  The comparison is only instantiated on a selected slot,
    where the sentinel holds an end iterator. *)
Definition get_eqb {A} (N : nat)
    (l : list (range_iterator A)) (r : list (sentinel_element A)) : bool :=
  match l !! N, r !! N with
  | Some p, Some (end_iterator e) => range_iterator_eqb p e
  | _, _ => false
  end.

(** [compare_zip_iterator<mask, N>(l, r)] *)
Definition compare_zip_iterator {A} (mask : bool) (N : nat)
    (l : list (range_iterator A)) (r : list (sentinel_element A)) : bool :=
  if mask then get_eqb N l r else false.

(** [compare_zip_iterators<mask>(l, r, std::index_sequence<N...>)]: the
    fold [(c_0 || ... || c_{n-1} || false)]. *)
Definition compare_zip_iterators {A}
    (mask : zip_sequence_length_selector)
    (l : list (range_iterator A)) (r : list (sentinel_element A))
    (N : list nat) : bool :=
  foldr (fun n rest =>
           compare_zip_iterator (examine_zip_element mask n) n l r || rest)
        false N.

End detail.
End d_zip.

(** ** The iterator and the view *)

(** [zip_iterator<range_index_type, examine_end_range, rangeN_type...>]:
    the template argument [examine_end_range] and the base tuple of range
    iterators. *)
Record zip_iterator {A : Type} : Type := ZipIterator {
  examine_end_range : zip_sequence_length_selector;
  base_type : list (range_iterator A)
}.
Arguments zip_iterator : clear implicits.

(** [zip_iterator::sentinel_type] values *)
Abbreviation zip_sentinel A := (list (d_zip.detail.sentinel_element A)).

(** [zip_iterator::index_sequence_type]:
    [std::make_index_sequence<sizeof...(rangeN_type)>] *)
Definition index_sequence_type {A} (i : zip_iterator A) : list nat :=
  seq 0 (length (base_type i)).

(** [zip_iterator::operator*] *)
Definition operator_deref {A} (i : zip_iterator A) : option (list A) :=
  d_zip.detail.dereference_iterator (base_type i).

(** [zip_iterator::operator++()] *)
Definition operator_incr {A} (i : zip_iterator A) : zip_iterator A :=
  ZipIterator A (examine_end_range i)
              (d_zip.detail.increment_iterator (base_type i)).

(** [zip_iterator::operator++(int)]: the copy taken before the advance, and
    the advanced iterator. *)
Definition operator_post_incr {A} (i : zip_iterator A)
    : zip_iterator A * zip_iterator A :=
  let result := i in
  (result, ZipIterator A (examine_end_range i)
                       (d_zip.detail.increment_iterator (base_type i))).

(** [zip_iterator::operator-]: [std::get<0>] of both base tuples; there is
    no such element in an empty tuple. *)
Definition operator_sub {A} (l i : zip_iterator A) : option Z :=
  match base_type l !! 0%nat, base_type i !! 0%nat with
  | Some l0, Some i0 => Some (range_iterator_sub l0 i0)
  | _, _ => None
  end.

(** [zip_iterator::operator==(const sentinel_type &)] *)
Definition operator_eq {A} (l : zip_iterator A) (i : zip_sentinel A) : bool :=
  d_zip.detail.compare_zip_iterators
    (examine_end_range l) (base_type l) i (index_sequence_type l).

(** The concept [zip_static_size_bounds_check<examine_end_range,
    range_all_static_sizes>].  An atomic constraint that cannot be formed
    ([::type] of the empty tuple, [::value] of [nullptr_t]) is not
    satisfied. *)
Definition zip_static_size_bounds_check
    (examine_end_range : zip_sequence_length_selector)
    (range_all_static_sizes : list static_size) : bool :=
  let minimum_all_static_size :=
    d_zip.detail.minimum_static_size range_all_static_sizes in
  let range_examined_static_sizes :=
    d_zip.detail.get_examined_static_size
      examine_end_range range_all_static_sizes in
  let minimum_examined_static_size :=
    d_zip.detail.minimum_static_size range_examined_static_sizes in
  match minimum_all_static_size, minimum_examined_static_size with
  | Some all, Some examined =>
      match examined with
      | nullptr_t => true
      | integral_constant e =>
          match all with
          | integral_constant a => (e <=? a)%nat
          | nullptr_t => false
          end
      end
  | _, _ => false
  end.

(** The requires-clause of [class zip]. *)
Definition zip_requires {A}
    (examine_end_range : zip_sequence_length_selector)
    (rangeN_type : list (range A)) : bool :=
  negb (examine_end_range =? 0)
  && (0 <? length rangeN_type)%nat
  && zip_static_size_bounds_check
       examine_end_range (d_zip.detail.get_static_size <$> rangeN_type).

(** [class zip]: the [zip_iterator] base sub-object and [m_end].  (The
    record is named [zip_view]: [zip] is the list function of the
    library.) *)
Record zip_view {A : Type} : Type := ZipView {
  iterator : zip_iterator A;
  m_end : zip_sentinel A
}.
Arguments zip_view : clear implicits.

(** [zip::zip(rangeN_type &&... rN)] in the class instantiated at
    [examine_end_range]; [None] when the class cannot be instantiated. *)
Definition zip_ctor {A}
    (examine_end_range : zip_sequence_length_selector)
    (rN : list (range A)) : option (zip_view A) :=
  if zip_requires examine_end_range rN then
    sentinel_type ← d_zip.detail.iterator_end_type examine_end_range rN;
    Some (ZipView A
            (ZipIterator A examine_end_range (range_begin <$> rN))
            (d_zip.detail.capture_end_iterators sentinel_type rN))
  else None.

(** [std::integral_constant<zip_sequence_length_selector, selector>]: an
    empty class; all its values are equal. *)
Inductive zip_sequence_selector (selector : zip_sequence_length_selector)
    : Type :=
  | zip_sequence_selector_value.

(** [zip::zip(std::integral_constant<zip_sequence_length_selector,
    selector>, rangeN_type &&... rN)]: a delegating constructor. *)
Definition zip_ctor_selector {A}
    (examine_end_range : zip_sequence_length_selector)
    {selector : zip_sequence_length_selector}
    (tag : zip_sequence_selector selector)
    (rN : list (range A)) : option (zip_view A) :=
  zip_ctor examine_end_range rN.

(** The deduction guide [zip(rangeN &&... rN)]. *)
Definition zip_guide {A} (rN : list (range A)) : option (zip_view A) :=
  zip_ctor 1 rN.

(** The deduction guide [zip(zip_sequence_selector<selector>, rangeN &&...
    rN)]. *)
Definition zip_guide_selector {A}
    {selector : zip_sequence_length_selector}
    (tag : zip_sequence_selector selector)
    (rN : list (range A)) : option (zip_view A) :=
  zip_ctor_selector selector tag rN.

(** [zip::begin()] *)
Definition zip_begin {A} (z : zip_view A) : zip_iterator A := iterator z.

(** [zip::end()] *)
Definition zip_end {A} (z : zip_view A) : zip_sentinel A := m_end z.

(** ** Traversal *)

(** What the loop over a view does: it ends with the tuples it read, it
    reads outside a range, or it is still running when the fuel is spent. *)
Inductive traversal {A : Type} : Type :=
  | Finished (tuples : list (list A))
  | UndefinedBehaviour
  | OutOfFuel.
Arguments traversal : clear implicits.

(** The loop of the class comment,
    [for (auto i = zip_range.begin(), e = zip_range.end(); i != e; ++i)],
    with a body that reads [*i]. *)
Fixpoint range_for_from {A} (fuel : nat)
    (i : zip_iterator A) (e : zip_sentinel A) : traversal A :=
  match fuel with
  | O => OutOfFuel
  | S fuel' =>
      if operator_eq i e then Finished []
      else
        match operator_deref i with
        | None => UndefinedBehaviour
        | Some tuple =>
            match range_for_from fuel' (operator_incr i) e with
            | Finished tuples => Finished (tuple :: tuples)
            | stopped => stopped
            end
        end
  end.

Definition range_for {A} (fuel : nat) (zip_range : zip_view A) : traversal A :=
  range_for_from fuel (zip_begin zip_range) (zip_end zip_range).

(** The selector that picks exactly the indices below [n] on which
    [selected] holds. *)
Fixpoint selector_of (selected : nat → bool) (n : nat)
    : zip_sequence_length_selector :=
  match n with
  | O => 0
  | S n' =>
      Z.lor (selector_of selected n')
            (if selected n' then Z.shiftl 1 (Z.of_nat n') else 0)
  end.

(** The base tuple of the iterator that stands at offset [k] in every
    range. *)
Definition iterators_at {A} (rN : list (range A)) (k : nat)
    : list (range_iterator A) :=
  (λ r, RangeIterator (range_elements r) k) <$> rN.

(** The static size of the range, when it has one, is its number of
    elements: so it is for a C array and a [std::array], and for a range
    without static size; a tuple-like range need not have it. *)
Definition static_size_is_length {A} (r : range A) : Prop :=
  match d_zip.detail.get_static_size r with
  | integral_constant n => length (range_elements r) = n
  | nullptr_t => True
  end.

(** ** Properties *)

Import d_zip.detail.

(** *** The selector mask *)

Lemma land_pow2_eqb_0 a n :
  0 ≤ n → (Z.land a (Z.shiftl 1 n) =? 0) = negb (Z.testbit a n).
Proof.
  intros Hn. rewrite Z.shiftl_1_l.
  destruct (Z.testbit a n) eqn:Hbit; simpl.
  - apply Z.eqb_neq. intros H0.
    assert (Z.testbit (Z.land a (2 ^ n)) n = true) as Hn'.
    { rewrite Z.land_spec, Hbit, Z.pow2_bits_true; done. }
    rewrite H0, Z.bits_0 in Hn'. done.
  - apply Z.eqb_eq, Z.bits_inj'. intros m Hm.
    rewrite Z.land_spec, Z.bits_0, Z.pow2_bits_eqb by done.
    destruct (Z.eqb_spec n m) as [->|]; [by rewrite Hbit|by rewrite andb_false_r].
Qed.

Lemma uint32_shiftl_1 (N : nat) :
  (N < 32)%nat → uint32 (Z.shiftl 1 (Z.of_nat N)) = Z.shiftl 1 (Z.of_nat N).
Proof.
  intros HN. unfold uint32. rewrite Z.shiftl_1_l.
  apply Z.mod_small. split; [apply Z.pow_nonneg; lia|].
  apply Z.pow_lt_mono_r; lia.
Qed.

Lemma examine_zip_element_testbit mask (N : nat) :
  examine_zip_element mask N
  = bool_decide (N < 32)%nat && Z.testbit (uint32 mask) (Z.of_nat N).
Proof.
  unfold examine_zip_element.
  destruct (Nat.ltb_spec N 32) as [HN|HN].
  - rewrite bool_decide_true by done. simpl.
    rewrite uint32_shiftl_1, land_pow2_eqb_0, negb_involutive by lia. done.
  - rewrite bool_decide_false by lia. done.
Qed.

Lemma uint32_small mask : 0 ≤ mask < 2 ^ 32 → uint32 mask = mask.
Proof. intros. by apply Z.mod_small. Qed.

Lemma testbit_uint32_high mask (N : nat) :
  0 ≤ mask < 2 ^ 32 → (32 ≤ N)%nat → Z.testbit mask (Z.of_nat N) = false.
Proof.
  intros Hm HN.
  apply (proj1 (Z.bounded_iff_bits_nonneg 32 mask ltac:(lia) ltac:(lia)));
    lia.
Qed.

Lemma selector_of_nonneg selected n : 0 ≤ selector_of selected n.
Proof.
  induction n as [|n IH]; simpl; [done|].
  apply Z.lor_nonneg. split; [done|].
  destruct (selected n); [|done]. rewrite Z.shiftl_1_l. apply Z.pow_nonneg; lia.
Qed.

Lemma selector_of_testbit selected n (k : nat) :
  Z.testbit (selector_of selected n) (Z.of_nat k)
  = bool_decide (k < n)%nat && selected k.
Proof.
  induction n as [|n IH]; simpl.
  - by rewrite Z.bits_0.
  - rewrite Z.lor_spec, IH.
    destruct (selected n) eqn:Hsel.
    + rewrite Z.shiftl_1_l, Z.pow2_bits_eqb by lia.
      destruct (Z.eqb_spec (Z.of_nat n) (Z.of_nat k)) as [Heq|Hne].
      * apply Nat2Z.inj in Heq as <-. rewrite Hsel.
        rewrite (bool_decide_true (n < S n)%nat) by lia.
        by rewrite orb_true_r.
      * rewrite orb_false_r.
        destruct (decide (k < n)%nat).
        -- rewrite !bool_decide_true by lia. done.
        -- rewrite !bool_decide_false by lia. done.
    + rewrite Z.bits_0, orb_false_r.
      destruct (decide (k = n)) as [->|].
      * rewrite Hsel, !andb_false_r. done.
      * destruct (decide (k < n)%nat).
        -- rewrite !bool_decide_true by lia. done.
        -- rewrite !bool_decide_false by lia. done.
Qed.

Lemma selector_of_bounded selected n :
  0 ≤ selector_of selected n < 2 ^ Z.of_nat n.
Proof.
  split; [apply selector_of_nonneg|].
  apply Z.bounded_iff_bits_nonneg; [lia|apply selector_of_nonneg|].
  intros l Hl. replace l with (Z.of_nat (Z.to_nat l)) by lia.
  rewrite selector_of_testbit, bool_decide_false by lia. done.
Qed.

(** C8.  Whether the sequence at index [N] takes part in the termination
    test is a function of the mask and [N] alone: it is bit [N] of the mask;
    and every choice among the indices 0 to 31 is the choice of some mask. *)
Theorem examine_zip_element_is_bit_test :
  (∀ (mask : Z) (N : nat),
      0 ≤ mask < 2 ^ 32 →
      examine_zip_element mask N = Z.testbit mask (Z.of_nat N))
  ∧ (∀ selected : nat → bool,
        ∃ mask : Z,
          0 ≤ mask < 2 ^ 32
          ∧ ∀ N : nat, (N < 32)%nat → examine_zip_element mask N = selected N).
Proof.
  split.
  - intros mask N Hmask.
    rewrite examine_zip_element_testbit, uint32_small by done.
    destruct (decide (N < 32)%nat).
    + by rewrite bool_decide_true.
    + rewrite bool_decide_false, testbit_uint32_high by lia. done.
  - intros selected. exists (selector_of selected 32).
    split; [apply (selector_of_bounded selected 32)|].
    intros N HN.
    rewrite examine_zip_element_testbit, uint32_small
      by apply (selector_of_bounded selected 32).
    rewrite selector_of_testbit, !bool_decide_true by done. done.
Qed.

Lemma examine_zip_element_is_bit_test_witness :
  0 ≤ 5 < 2 ^ 32
  ∧ examine_zip_element 5 2 = Z.testbit 5 (Z.of_nat 2).
Proof.
  split; [lia|].
  apply (proj1 examine_zip_element_is_bit_test 5 2%nat). lia.
Defined.

(** *** The minimum of the static sizes *)

Lemma minimum_static_size_from_known (v0 : nat) (sizeN : list static_size) :
  ∃ m : nat,
    minimum_static_size_from (integral_constant v0) sizeN = integral_constant m
    ∧ (m = v0 ∨ integral_constant m ∈ sizeN)
    ∧ (m ≤ v0)%nat
    ∧ ∀ k : nat, integral_constant k ∈ sizeN → (m ≤ k)%nat.
Proof.
  revert v0. induction sizeN as [|size1 sizeN IH]; intros v0; simpl.
  - exists v0. split_and!; [done|by left|done|]. intros k Hk. by inversion Hk.
  - destruct size1 as [v1|].
    + destruct (Nat.ltb_spec v0 v1) as [Hlt|Hge].
      * destruct (IH v0) as (m & -> & Hin & Hle & Hmin).
        exists m. split_and!; [done| |done|].
        -- destruct Hin; [by left|right; by constructor].
        -- intros k [[= <-]|Hk]%elem_of_cons; [lia|by apply Hmin].
      * destruct (IH v1) as (m & -> & Hin & Hle & Hmin).
        exists m. split_and!; [done| |lia|].
        -- right. destruct Hin as [->|]; [by left|by constructor].
        -- intros k [[= <-]|Hk]%elem_of_cons; [lia|by apply Hmin].
    + destruct (IH v0) as (m & -> & Hin & Hle & Hmin).
      exists m. split_and!; [done| |done|].
      * destruct Hin; [by left|right; by constructor].
      * intros k [[=]|Hk]%elem_of_cons. by apply Hmin.
Qed.

Lemma minimum_static_size_from_unknown (sizeN : list static_size) :
  (∀ s, s ∈ sizeN → s = nullptr_t) →
  minimum_static_size_from nullptr_t sizeN = nullptr_t.
Proof.
  induction sizeN as [|size1 sizeN IH]; intros Hall; simpl; [done|].
  rewrite (Hall size1) by left. apply IH. intros s Hs. apply Hall. by right.
Qed.

Lemma minimum_static_size_from_some_known
    (size0 : static_size) (sizeN : list static_size) (n : nat) :
  integral_constant n ∈ size0 :: sizeN →
  ∃ m : nat,
    minimum_static_size_from size0 sizeN = integral_constant m
    ∧ integral_constant m ∈ size0 :: sizeN
    ∧ ∀ k : nat, integral_constant k ∈ size0 :: sizeN → (m ≤ k)%nat.
Proof.
  revert size0. induction sizeN as [|size1 sizeN IH]; intros size0 Hn.
  - apply list_elem_of_singleton in Hn as <-. exists n.
    split_and!; [done|by left|]. by intros k [= ->]%list_elem_of_singleton.
  - destruct size0 as [v0|].
    + destruct (minimum_static_size_from_known v0 (size1 :: sizeN))
        as (m & Hm & Hin & Hle & Hmin).
      exists m. split_and!; [done| |].
      * destruct Hin as [->|]; [by left|by right].
      * intros k [[= <-]|Hk]%elem_of_cons; [done|by apply Hmin].
    + apply elem_of_cons in Hn as [[=]|Hn].
      destruct (IH size1 Hn) as (m & Hm & Hin & Hmin).
      exists m. split_and!; [done|by right|].
      intros k [[=]|Hk]%elem_of_cons. by apply Hmin.
Qed.

(** C7.  On a non-empty list of static sizes, the fold returns the least
    of the known sizes when some size is known and [nullptr_t] when none is;
    an unknown size met as either operand of a pairwise step is dropped and
    the other operand carries on. *)
Theorem minimum_static_size_is_least_known :
  (∀ (sizes : list static_size) (n : nat),
      integral_constant n ∈ sizes →
      ∃ m : nat,
        minimum_static_size sizes = Some (integral_constant m)
        ∧ integral_constant m ∈ sizes
        ∧ ∀ k : nat, integral_constant k ∈ sizes → (m ≤ k)%nat)
  ∧ (∀ sizes : list static_size,
        sizes ≠ [] →
        (∀ s, s ∈ sizes → s = nullptr_t) →
        minimum_static_size sizes = Some nullptr_t)
  ∧ (∀ (size1 : static_size) (sizeN : list static_size),
        minimum_static_size (nullptr_t :: size1 :: sizeN)
        = minimum_static_size (size1 :: sizeN))
  ∧ (∀ (size0 : static_size) (sizeN : list static_size),
        minimum_static_size (size0 :: nullptr_t :: sizeN)
        = minimum_static_size (size0 :: sizeN)).
Proof.
  split_and!.
  - intros [|size0 sizeN] n Hn; [by inversion Hn|].
    destruct (minimum_static_size_from_some_known size0 sizeN n Hn)
      as (m & Hm & Hin & Hmin).
    exists m. simpl. by rewrite Hm.
  - intros [|size0 sizeN] Hne Hall; [done|]. simpl.
    rewrite (Hall size0) by left.
    rewrite minimum_static_size_from_unknown; [done|].
    intros s Hs. apply Hall. by right.
  - done.
  - intros [v0|] sizeN; done.
Qed.

Lemma minimum_static_size_is_least_known_witness :
  (∃ m : nat,
      minimum_static_size [integral_constant 5; nullptr_t; integral_constant 2]
      = Some (integral_constant m)
      ∧ integral_constant m
          ∈ [integral_constant 5; nullptr_t; integral_constant 2]
      ∧ ∀ k : nat,
          integral_constant k
            ∈ [integral_constant 5; nullptr_t; integral_constant 2] →
          (m ≤ k)%nat)
  ∧ minimum_static_size [nullptr_t; nullptr_t] = Some nullptr_t.
Proof.
  split.
  - apply (proj1 minimum_static_size_is_least_known
             [integral_constant 5; nullptr_t; integral_constant 2] 2%nat).
    do 2 right. left.
  - apply (proj1 (proj2 minimum_static_size_is_least_known)
             [nullptr_t; nullptr_t]).
    + discriminate.
    + intros s Hs. apply elem_of_cons in Hs as [->|Hs]; [reflexivity|].
      apply elem_of_cons in Hs as [->|Hs]; [reflexivity|]. inversion Hs.
Defined.

(** *** Comparison with the sentinel *)

Lemma foldr_orb_true (f : nat → bool) (ns : list nat) :
  foldr (λ n rest, f n || rest) false ns = true ↔ ∃ n, n ∈ ns ∧ f n = true.
Proof.
  induction ns as [|n ns IH]; simpl.
  - split; [done|]. intros (n & Hn & _). by inversion Hn.
  - rewrite orb_true_iff, IH. split.
    + intros [Hf|(k & Hk & Hf)]; [exists n|exists k]; split; try done;
        by constructor.
    + intros (k & [->|Hk]%elem_of_cons & Hf); [by left|right; eauto].
Qed.

Lemma foldr_orb_ext (f g : nat → bool) (ns : list nat) :
  (∀ n, n ∈ ns → f n = g n) →
  foldr (λ n rest, f n || rest) false ns
  = foldr (λ n rest, g n || rest) false ns.
Proof.
  induction ns as [|n ns IH]; intros Hfg; simpl; [done|].
  rewrite (Hfg n) by left. f_equal. apply IH. intros k Hk. apply Hfg. by right.
Qed.

Lemma get_eqb_true {A} N (l : list (range_iterator A))
    (r : list (sentinel_element A)) :
  get_eqb N l r = true
  ↔ ∃ p e, l !! N = Some p ∧ r !! N = Some (end_iterator e)
           ∧ offset p = offset e.
Proof.
  unfold get_eqb, range_iterator_eqb. split.
  - destruct (l !! N) as [p|]; [|done].
    destruct (r !! N) as [[e|]|]; [|done..].
    intros ?%Nat.eqb_eq. eauto.
  - intros (p & e & -> & -> & Heq). by apply Nat.eqb_eq.
Qed.

Lemma compare_zip_iterators_true {A} mask (l : list (range_iterator A))
    (r : list (sentinel_element A)) :
  compare_zip_iterators mask l r (seq 0 (length l)) = true
  ↔ ∃ N p e,
      examine_zip_element mask N = true
      ∧ l !! N = Some p ∧ r !! N = Some (end_iterator e)
      ∧ offset p = offset e.
Proof.
  unfold compare_zip_iterators. rewrite foldr_orb_true. split.
  - intros (N & _ & Hcmp). unfold compare_zip_iterator in Hcmp.
    destruct (examine_zip_element mask N) eqn:Hex; [|done].
    apply get_eqb_true in Hcmp as (p & e & ?). exists N, p, e. done.
  - intros (N & p & e & Hex & Hl & Hr & Heq). exists N. split.
    + apply elem_of_seq. apply lookup_lt_Some in Hl. lia.
    + unfold compare_zip_iterator. rewrite Hex. apply get_eqb_true. eauto.
Qed.

(** C1.  [iterator == sentinel] holds exactly when some slot selected by
    the mask has its position equal to the end marker the sentinel holds for
    that slot; the slots that are not selected take no part: changing their
    positions or what the sentinel holds for them leaves the result as it
    is. *)
Theorem operator_eq_iff_some_examined_slot_at_end
    {A : Type} (l : zip_iterator A) (i : zip_sentinel A) :
  (operator_eq l i = true
   ↔ ∃ (N : nat) (p e : range_iterator A),
       examine_zip_element (examine_end_range l) N = true
       ∧ base_type l !! N = Some p
       ∧ i !! N = Some (end_iterator e)
       ∧ range_iterator_eqb p e = true)
  ∧ (∀ (l' : zip_iterator A) (i' : zip_sentinel A),
        examine_end_range l' = examine_end_range l →
        length (base_type l') = length (base_type l) →
        (∀ N : nat,
            examine_zip_element (examine_end_range l) N = true →
            base_type l' !! N = base_type l !! N ∧ i' !! N = i !! N) →
        operator_eq l' i' = operator_eq l i).
Proof.
  split.
  { unfold operator_eq, index_sequence_type.
    rewrite compare_zip_iterators_true. unfold range_iterator_eqb.
    by setoid_rewrite Nat.eqb_eq. }
  intros l' i' Hmask Hlen Hsame.
  unfold operator_eq, index_sequence_type, compare_zip_iterators.
  rewrite Hmask, Hlen. apply foldr_orb_ext. intros N _.
  unfold compare_zip_iterator.
  destruct (examine_zip_element (examine_end_range l) N) eqn:Hex; [|done].
  unfold get_eqb. by destruct (Hsame N Hex) as [-> ->].
Qed.

Lemma operator_eq_iff_some_examined_slot_at_end_witness :
  operator_eq
    (ZipIterator nat 1 [RangeIterator [7; 8]%nat 2; RangeIterator [1]%nat 9])
    [end_iterator (RangeIterator [7; 8]%nat 2); ignore]
  = operator_eq
      (ZipIterator nat 1 [RangeIterator [7; 8]%nat 2; RangeIterator [1]%nat 0])
      [end_iterator (RangeIterator [7; 8]%nat 2);
       end_iterator (RangeIterator [1]%nat 0)].
Proof.
  apply (proj2 (operator_eq_iff_some_examined_slot_at_end
                  (ZipIterator nat 1
                     [RangeIterator [7; 8]%nat 2; RangeIterator [1]%nat 0])
                  [end_iterator (RangeIterator [7; 8]%nat 2);
                   end_iterator (RangeIterator [1]%nat 0)])).
  - reflexivity.
  - reflexivity.
  - intros [|N] HN; [split; reflexivity|].
    destruct N as [|N]; [discriminate HN|].
    split; reflexivity.
Defined.

(** *** Advancing *)

Lemma range_iterator_incr_iter {A} (k : nat) (p : range_iterator A) :
  Nat.iter k range_iterator_incr p
  = RangeIterator (underlying p) (k + offset p).
Proof.
  induction k as [|k IH]; simpl; [by destruct p|]. by rewrite IH.
Qed.

Lemma operator_incr_iter {A} (k : nat) (i : zip_iterator A) :
  Nat.iter k operator_incr i
  = ZipIterator A (examine_end_range i)
      (Nat.iter k range_iterator_incr <$> base_type i).
Proof.
  induction k as [|k IH]; simpl.
  - destruct i as [mask base]; simpl. by rewrite list_fmap_id.
  - rewrite IH. unfold operator_incr, increment_iterator; simpl.
    by rewrite <-list_fmap_compose.
Qed.

(** C6.  One advance moves the position in every slot one step forward and
    keeps the number of slots; slot [N] of the result is computed from slot
    [N] alone, whatever the mask selects; the postfix form advances in the
    same way and hands back the iterator as it was. *)
Theorem operator_incr_advances_every_slot
    {A : Type} (i : zip_iterator A) (N : nat) :
  base_type (operator_incr i) !! N
    = range_iterator_incr <$> base_type i !! N
  ∧ offset <$> base_type (operator_incr i) !! N
    = (λ p, S (offset p)) <$> base_type i !! N
  ∧ underlying <$> base_type (operator_incr i) !! N
    = underlying <$> base_type i !! N
  ∧ length (base_type (operator_incr i)) = length (base_type i)
  ∧ examine_end_range (operator_incr i) = examine_end_range i
  ∧ operator_post_incr i = (i, operator_incr i)
  ∧ (∀ i' : zip_iterator A,
        base_type i' !! N = base_type i !! N →
        base_type (operator_incr i') !! N = base_type (operator_incr i) !! N).
Proof.
  assert (∀ j : zip_iterator A,
            base_type (operator_incr j) !! N
            = range_iterator_incr <$> base_type j !! N) as Hslot.
  { intros j. unfold operator_incr, increment_iterator; simpl.
    apply list_lookup_fmap. }
  split_and!.
  - apply Hslot.
  - rewrite Hslot. by destruct (base_type i !! N).
  - rewrite Hslot. by destruct (base_type i !! N).
  - unfold operator_incr, increment_iterator; simpl. apply length_fmap.
  - done.
  - done.
  - intros i' Hsame. by rewrite !Hslot, Hsame.
Qed.

Lemma operator_incr_advances_every_slot_witness :
  base_type
    (operator_incr
       (ZipIterator nat 2 [RangeIterator [4]%nat 0; RangeIterator [5; 6]%nat 0]))
    !! 0%nat
  = base_type
      (operator_incr
         (ZipIterator nat 1 [RangeIterator [4]%nat 0; RangeIterator [5]%nat 1]))
      !! 0%nat.
Proof.
  apply (operator_incr_advances_every_slot
           (ZipIterator nat 1 [RangeIterator [4]%nat 0; RangeIterator [5]%nat 1])
           0%nat).
  reflexivity.
Defined.

(** *** Construction *)

Lemma zip_ctor_Some {A} mask (rN : list (range A)) (z : zip_view A) :
  zip_ctor mask rN = Some z →
  zip_requires mask rN = true
  ∧ z = ZipView A
          (ZipIterator A mask (range_begin <$> rN))
          (capture_end_iterators
             (imap (λ range_index _,
                      iterator_element_end_type
                        (examine_zip_element mask range_index)) rN)
             rN).
Proof.
  unfold zip_ctor, iterator_end_type.
  destruct (zip_requires mask rN) eqn:Hreq; [|done].
  unfold zip_requires in Hreq.
  destruct (negb (mask =? 0)); [|done]. simpl. by intros [= <-].
Qed.

Lemma zip_requires_nonempty {A} mask (rN : list (range A)) :
  zip_requires mask rN = true → mask ≠ 0 ∧ rN ≠ [].
Proof.
  unfold zip_requires. intros [[Hmask Hlen]%andb_true_iff _]%andb_true_iff.
  split.
  - intros ->. done.
  - intros ->. done.
Qed.

Lemma zip_ctor_of_requires {A} mask (rN : list (range A)) :
  zip_requires mask rN = true → is_Some (zip_ctor mask rN).
Proof.
  intros Hreq. unfold zip_ctor, iterator_end_type. rewrite Hreq.
  apply zip_requires_nonempty in Hreq as [Hmask _].
  destruct (Z.eqb_spec mask 0); [done|]. simpl. eauto.
Qed.

(** *** Distance *)

(** C9.  In a view that was constructed, the iterator reached from
    [begin()] by [k] advances is at distance [k] from [begin()]; the
    distance is read from slot 0 of the two iterators and from nothing
    else. *)
Theorem operator_sub_counts_advances
    {A : Type} (mask : Z) (rN : list (range A)) (z : zip_view A) (k : nat) :
  zip_ctor mask rN = Some z →
  operator_sub (Nat.iter k operator_incr (zip_begin z)) (zip_begin z)
    = Some (Z.of_nat k)
  ∧ ∀ l l' i i' : zip_iterator A,
      base_type l' !! 0%nat = base_type l !! 0%nat →
      base_type i' !! 0%nat = base_type i !! 0%nat →
      operator_sub l' i' = operator_sub l i.
Proof.
  intros Hz. split.
  - apply zip_ctor_Some in Hz as [Hreq ->].
    apply zip_requires_nonempty in Hreq as [_ Hne].
    destruct rN as [|r0 rN]; [done|].
    rewrite operator_incr_iter. unfold operator_sub, zip_begin; simpl.
    rewrite range_iterator_incr_iter. unfold range_iterator_sub; simpl.
    f_equal. lia.
  - intros l l' i i' Hl Hi. unfold operator_sub. by rewrite Hl, Hi.
Qed.

Lemma operator_sub_counts_advances_witness :
  zip_ctor 1 [c_array [10; 20; 30]%nat; dynamic_range [1; 2; 3; 4]%nat]
  = Some
      (ZipView nat
         (ZipIterator nat 1
            [RangeIterator [10; 20; 30]%nat 0;
             RangeIterator [1; 2; 3; 4]%nat 0])
         [end_iterator (RangeIterator [10; 20; 30]%nat 3); ignore])
  ∧ operator_sub
      (Nat.iter 2 operator_incr
         (ZipIterator nat 1
            [RangeIterator [10; 20; 30]%nat 0;
             RangeIterator [1; 2; 3; 4]%nat 0]))
      (ZipIterator nat 1
         [RangeIterator [10; 20; 30]%nat 0;
          RangeIterator [1; 2; 3; 4]%nat 0])
    = Some 2.
Proof.
  split; [reflexivity|].
  apply (operator_sub_counts_advances 1
           [c_array [10; 20; 30]%nat; dynamic_range [1; 2; 3; 4]%nat]
           (ZipView nat
              (ZipIterator nat 1
                 [RangeIterator [10; 20; 30]%nat 0;
                  RangeIterator [1; 2; 3; 4]%nat 0])
              [end_iterator (RangeIterator [10; 20; 30]%nat 3); ignore])
           2).
  reflexivity.
Defined.

(** C10.  In one instantiation of the class, the constructor that takes a
    selector tag builds the view the plain constructor builds, with the same
    begin positions and the same sentinel, for every tag type and tag value;
    the deduction guide of the tagged form instantiates the class at the
    selector of the tag, and a tag type has one value only. *)
Theorem zip_ctor_selector_is_zip_ctor
    {A : Type} (examine_end_range selector : Z)
    (tag tag' : zip_sequence_selector selector) (rN : list (range A)) :
  zip_ctor_selector examine_end_range tag rN = zip_ctor examine_end_range rN
  ∧ zip_begin <$> zip_ctor_selector examine_end_range tag rN
    = zip_begin <$> zip_ctor examine_end_range rN
  ∧ zip_end <$> zip_ctor_selector examine_end_range tag rN
    = zip_end <$> zip_ctor examine_end_range rN
  ∧ zip_guide_selector tag rN = zip_ctor selector rN
  ∧ zip_guide rN = zip_guide_selector (zip_sequence_selector_value 1) rN
  ∧ tag = tag'.
Proof.
  split_and!; try reflexivity. by destruct tag, tag'.
Qed.

(** C5, as stated for every mask that selects no range, fails: mask 4 over
    two ranges selects neither of them, and the view is constructed, with
    [std::ignore] in both slots of the sentinel. *)
Lemma zip_ctor_accepts_selector_without_range :
  examine_zip_element 4 0 = false
  ∧ examine_zip_element 4 1 = false
  ∧ zip_ctor 4 [dynamic_range [1; 2]%nat; dynamic_range [7]%nat]
    = Some (ZipView nat
              (ZipIterator nat 4
                 [RangeIterator [1; 2]%nat 0; RangeIterator [7]%nat 0])
              [ignore; ignore]).
Proof. repeat split; reflexivity. Qed.

(** C5, amended.  With the mask of value zero the class cannot be
    instantiated, for any ranges: the requires-clause fails, no view is
    constructed by either constructor or deduction guide, and the sentinel
    type, which a comparison needs, does not exist either. *)
Theorem zip_ctor_rejects_empty_selector
    {A : Type} (rN : list (range A)) (tag : zip_sequence_selector 0) :
  zip_requires 0 rN = false
  ∧ zip_ctor 0 rN = None
  ∧ zip_ctor_selector 0 tag rN = None
  ∧ zip_guide_selector tag rN = None
  ∧ iterator_end_type 0 rN = None.
Proof. done. Qed.

(** The non-empty test of the requires-clause is on the value of the mask:
    a mask whose bits all lie at or above the number of ranges is accepted,
    and the traversal of such a view never ends at the sentinel. *)
Lemma zip_ctor_selector_beyond_ranges {A : Type} (a : A) :
  ∃ z : zip_view A,
    zip_ctor 2 [dynamic_range [a]] = Some z
    ∧ ∀ fuel : nat,
        range_for fuel z = OutOfFuel ∨ range_for fuel z = UndefinedBehaviour.
Proof.
  eexists. split; [reflexivity|].
  intros [|[|fuel]]; [by left|by left|]. right.
  destruct fuel; reflexivity.
Qed.

(** *** The static-size check *)

Lemma minimum_static_size_from_elem
    (size0 : static_size) (sizeN : list static_size) (m : nat) :
  minimum_static_size_from size0 sizeN = integral_constant m →
  integral_constant m ∈ size0 :: sizeN.
Proof.
  revert size0. induction sizeN as [|size1 sizeN IH]; intros size0; simpl.
  - intros ->. left.
  - destruct size0 as [v0|], size1 as [v1|]; intros Hm%IH.
    + destruct (v0 <? v1)%nat.
      * apply elem_of_cons in Hm as [->|?]; [left|by do 2 right].
      * by right.
    + apply elem_of_cons in Hm as [->|?]; [left|by do 2 right].
    + by right.
    + by right.
Qed.

Lemma get_examined_static_size_lookup mask (sizeN : list static_size) N :
  get_examined_static_size mask sizeN !! N
  = (λ size, if examine_zip_element mask N then size else nullptr_t)
      <$> sizeN !! N.
Proof. unfold get_examined_static_size. apply list_lookup_imap. Qed.

Lemma get_examined_static_size_known mask (sizeN : list static_size) n :
  integral_constant n ∈ get_examined_static_size mask sizeN →
  integral_constant n ∈ sizeN.
Proof.
  intros (N & HN)%list_elem_of_lookup.
  rewrite get_examined_static_size_lookup in HN.
  destruct (sizeN !! N) as [size|] eqn:Hsize; [|done]. simpl in HN.
  destruct (examine_zip_element mask N); [|done].
  injection HN as ->. by apply list_elem_of_lookup_2 in Hsize.
Qed.

Lemma minimum_examined_static_size_bound
    mask (sizes : list static_size) (e : nat) :
  minimum_static_size (get_examined_static_size mask sizes)
    = Some (integral_constant e) →
  ∃ a : nat,
    minimum_static_size sizes = Some (integral_constant a) ∧ (a ≤ e)%nat
    ∧ integral_constant a ∈ sizes ∧ integral_constant e ∈ sizes.
Proof.
  intros Hex.
  assert (integral_constant e ∈ sizes) as Hin.
  { apply (get_examined_static_size_known mask).
    destruct (get_examined_static_size mask sizes) as [|s0 sN]; [done|].
    injection Hex as Hex. by apply minimum_static_size_from_elem. }
  destruct sizes as [|size0 sizeN]; [by inversion Hin|].
  destruct (minimum_static_size_from_some_known size0 sizeN e Hin)
    as (a & Ha & Hina & Hmin).
  exists a. simpl. rewrite Ha. split_and!; [done|by apply Hmin|done..].
Qed.

(** C4.  The static-size check passes exactly when the least static size
    of the examined ranges is unknown or is known and at most the least
    static size of all ranges, and fails exactly when both are known and
    the examined one is the greater; with a non-empty mask and at least one
    range, the view is constructed exactly when the check passes.  A C array
    of 2 elements selected with one of 5 elements not selected is accepted;
    the two the other way round are rejected. *)
Theorem zip_static_size_bounds_check_decides_construction
    {A : Type} :
  (∀ (mask : Z) (sizes : list static_size) (all examined : static_size),
      minimum_static_size sizes = Some all →
      minimum_static_size (get_examined_static_size mask sizes)
        = Some examined →
      (zip_static_size_bounds_check mask sizes = true
       ↔ examined = nullptr_t
         ∨ ∃ e a : nat,
             examined = integral_constant e ∧ all = integral_constant a
             ∧ (e ≤ a)%nat)
      ∧ (zip_static_size_bounds_check mask sizes = false
         ↔ ∃ e a : nat,
             examined = integral_constant e ∧ all = integral_constant a
             ∧ (a < e)%nat))
  ∧ (∀ (mask : Z) (rN : list (range A)),
        mask ≠ 0 → rN ≠ [] →
        (is_Some (zip_ctor mask rN)
         ↔ zip_static_size_bounds_check mask (get_static_size <$> rN) = true)
        ∧ (zip_ctor mask rN = None
           ↔ zip_static_size_bounds_check mask (get_static_size <$> rN)
             = false))
  ∧ (∀ short long : list A,
        length short = 2%nat → length long = 5%nat →
        is_Some (zip_guide [c_array short; c_array long])
        ∧ zip_guide [c_array long; c_array short] = None
        ∧ is_Some (zip_guide [std_array short; std_array long])
        ∧ zip_guide [std_array long; std_array short] = None).
Proof.
  split_and!.
  - intros mask sizes all examined Hall Hex.
    unfold zip_static_size_bounds_check. rewrite Hall, Hex.
    destruct examined as [e|].
    + destruct (minimum_examined_static_size_bound mask sizes e Hex)
        as (a & Ha & Hle & _).
      rewrite Hall in Ha. injection Ha as ->. split.
      * rewrite Nat.leb_le. split.
        -- intros Hea. right. by exists e, a.
        -- intros [[=]|(e' & a' & [= <-] & [= <-] & ?)]. done.
      * rewrite Nat.leb_gt. split.
        -- intros Hae. by exists e, a.
        -- intros (e' & a' & [= <-] & [= <-] & ?). done.
    + split.
      * split; [by left|done].
      * split; [done|]. by intros (e & a & [=] & _).
  - intros mask rN Hmask Hne.
    assert (zip_requires mask rN
            = zip_static_size_bounds_check mask (get_static_size <$> rN))
      as Hreq.
    { unfold zip_requires. destruct (Z.eqb_spec mask 0); [done|].
      destruct rN; done. }
    split.
    + split.
      * intros [z [Hz _]%zip_ctor_Some]. by rewrite <-Hreq.
      * intros Hcheck. apply zip_ctor_of_requires. by rewrite Hreq.
    + split.
      * intros Hnone. rewrite <-Hreq.
        destruct (zip_requires mask rN) eqn:Hr; [|done].
        apply zip_ctor_of_requires in Hr as [z Hz]. congruence.
      * intros Hcheck. unfold zip_ctor. by rewrite Hreq, Hcheck.
  - intros short long Hshort Hlong.
    unfold zip_guide, zip_ctor, zip_requires, zip_static_size_bounds_check.
    simpl. rewrite Hshort, Hlong. simpl. split_and!; eauto.
Qed.

Lemma zip_static_size_bounds_check_decides_construction_witness :
  (zip_static_size_bounds_check 1 [integral_constant 5; integral_constant 2]
   = false
   ↔ ∃ e a : nat,
       integral_constant 5 = integral_constant e
       ∧ integral_constant 2 = integral_constant a ∧ (a < e)%nat)
  ∧ (is_Some (zip_ctor 2 [dynamic_range [1; 2]%nat; c_array [1; 2]%nat])
     ↔ zip_static_size_bounds_check 2
         (get_static_size
            <$> [dynamic_range [1; 2]%nat; c_array [1; 2]%nat]) = true)
  ∧ is_Some (zip_guide [c_array [1; 2]%nat; c_array [1; 2; 3; 4; 5]%nat])
  ∧ zip_guide [c_array [1; 2; 3; 4; 5]%nat; c_array [1; 2]%nat] = None.
Proof.
  split_and!.
  - apply (proj1 (@zip_static_size_bounds_check_decides_construction nat)
             1 [integral_constant 5; integral_constant 2]
             (integral_constant 2) (integral_constant 5));
      reflexivity.
  - apply (proj1 (proj2
             (@zip_static_size_bounds_check_decides_construction nat))
             2 [dynamic_range [1; 2]%nat; c_array [1; 2]%nat]);
      discriminate.
  - apply (proj2 (proj2
             (@zip_static_size_bounds_check_decides_construction nat))
             [1; 2]%nat [1; 2; 3; 4; 5]%nat); reflexivity.
  - apply (proj2 (proj2
             (@zip_static_size_bounds_check_decides_construction nat))
             [1; 2]%nat [1; 2; 3; 4; 5]%nat); reflexivity.
Defined.

(** *** Traversal *)

Lemma capture_end_iterators_lookup {A} mask (rN : list (range A)) (j : nat) :
  capture_end_iterators
    (imap (λ range_index _,
             iterator_element_end_type (examine_zip_element mask range_index))
          rN) rN !! j
  = (λ r, if examine_zip_element mask j
          then end_iterator (range_end r) else ignore) <$> rN !! j.
Proof.
  unfold capture_end_iterators.
  rewrite lookup_zip_with, list_lookup_imap.
  destruct (rN !! j) as [r|]; [|done]. simpl.
  by destruct (examine_zip_element mask j).
Qed.

Lemma zip_ctor_begin_end {A} mask (rN : list (range A)) (z : zip_view A) :
  zip_ctor mask rN = Some z →
  zip_begin z = ZipIterator A mask (iterators_at rN 0)
  ∧ ∀ j, zip_end z !! j
         = (λ r, if examine_zip_element mask j
                 then end_iterator (range_end r) else ignore) <$> rN !! j.
Proof.
  intros [_ ->]%zip_ctor_Some. split; [done|].
  intros j. apply capture_end_iterators_lookup.
Qed.

Lemma operator_incr_iterators_at {A} mask (rN : list (range A)) (k : nat) :
  operator_incr (ZipIterator A mask (iterators_at rN k))
  = ZipIterator A mask (iterators_at rN (S k)).
Proof.
  unfold operator_incr, increment_iterator, iterators_at; simpl.
  by rewrite <-list_fmap_compose.
Qed.

Section traversal.
Context {A : Type} (mask : Z) (rN : list (range A)) (e : zip_sentinel A).
Hypothesis sentinel :
  ∀ j, e !! j
       = (λ r, if examine_zip_element mask j
               then end_iterator (range_end r) else ignore) <$> rN !! j.

Lemma operator_eq_iterators_at (k : nat) :
  operator_eq (ZipIterator A mask (iterators_at rN k)) e = true
  ↔ ∃ j r, examine_zip_element mask j = true ∧ rN !! j = Some r
           ∧ length (range_elements r) = k.
Proof.
  unfold operator_eq, index_sequence_type. simpl.
  rewrite compare_zip_iterators_true. unfold iterators_at. split.
  - intros (j & p & q & Hex & Hp & Hq & Heq). exists j.
    rewrite list_lookup_fmap in Hp. rewrite sentinel, Hex in Hq.
    destruct (rN !! j) as [r|]; [|done]. exists r.
    injection Hp as <-. injection Hq as <-. done.
  - intros (j & r & Hex & Hr & Hlen).
    exists j, (RangeIterator (range_elements r) k), (range_end r).
    rewrite list_lookup_fmap, sentinel, Hr, Hex. done.
Qed.

Lemma dereference_iterators_at (k : nat) :
  (∀ j r, rN !! j = Some r → k < length (range_elements r))%nat →
  ∃ tuple : list A,
    dereference_iterator (iterators_at rN k) = Some tuple
    ∧ Forall2 (λ r x, range_elements r !! k = Some x) rN tuple.
Proof.
  intros Hlen. unfold dereference_iterator, iterators_at.
  destruct (mapM_is_Some_2 range_iterator_deref
              ((λ r, RangeIterator (range_elements r) k) <$> rN))
    as [tuple Htuple].
  { apply Forall_fmap, Forall_lookup. intros j r Hr. simpl.
    unfold range_iterator_deref; simpl.
    apply lookup_lt_is_Some. by apply (Hlen j). }
  exists tuple. split; [done|].
  apply mapM_Some, Forall2_fmap_l in Htuple. done.
Qed.

(** From offset [k] the loop reads the [n] tuples that are left before the
    first selected range ends, provided no range ends earlier. *)
Lemma range_for_from_iterators_at (m n k : nat) :
  (k + n = m)%nat →
  (∃ j r, examine_zip_element mask j = true ∧ rN !! j = Some r
          ∧ length (range_elements r) = m) →
  (∀ j r, rN !! j = Some r → m ≤ length (range_elements r))%nat →
  ∃ tuples : list (list A),
    (∀ fuel, (n < fuel)%nat →
       range_for_from fuel (ZipIterator A mask (iterators_at rN k)) e
       = Finished tuples)
    ∧ length tuples = n
    ∧ ∀ d, (d < n)%nat →
        ∃ tuple, tuples !! d = Some tuple
                 ∧ Forall2 (λ r x, range_elements r !! (k + d)%nat = Some x)
                     rN tuple.
Proof.
  intros Hk Hshortest Hall. revert k Hk.
  induction n as [|n IH]; intros k Hk.
  - exists []. split_and!; [|done|intros; lia].
    intros [|fuel] Hfuel; [lia|]. simpl.
    rewrite (proj2 (operator_eq_iterators_at k)); [done|].
    replace k with m by lia. done.
  - destruct (operator_eq (ZipIterator A mask (iterators_at rN k)) e)
      eqn:Heq.
    { apply operator_eq_iterators_at in Heq as (j & r & _ & Hr & Hlen).
      apply Hall in Hr. lia. }
    destruct (dereference_iterators_at k) as (tuple & Htuple & Helems).
    { intros j r Hr%Hall. lia. }
    destruct (IH (S k)) as (tuples & Hrun & Hlength & Hcontents); [lia|].
    exists (tuple :: tuples). split_and!.
    + intros [|fuel] Hfuel; [lia|]. simpl. rewrite Heq.
      unfold operator_deref; simpl. rewrite Htuple.
      rewrite operator_incr_iterators_at, Hrun by lia. done.
    + simpl. by rewrite Hlength.
    + intros [|d] Hd.
      * exists tuple. rewrite Nat.add_0_r. done.
      * destruct (Hcontents d) as (t & Ht & Hfor); [lia|].
        exists t. split; [done|].
        replace (k + S d)%nat with (S k + d)%nat by lia. done.
Qed.
End traversal.

(** The traversal of a constructed view, in the form the claims use: the
    loop ends after as many tuples as the shortest selected range has
    elements, and tuple [k] holds, in slot [i], element [k] of range [i]. *)
Lemma range_for_lockstep {A} mask (rN : list (range A)) (z : zip_view A) m :
  zip_ctor mask rN = Some z →
  (∃ j r, examine_zip_element mask j = true ∧ rN !! j = Some r
          ∧ length (range_elements r) = m) →
  (∀ j r, rN !! j = Some r → m ≤ length (range_elements r))%nat →
  ∃ tuples : list (list A),
    (∀ fuel, (m < fuel)%nat → range_for fuel z = Finished tuples)
    ∧ length tuples = m
    ∧ ∀ k i r, (k < m)%nat → rN !! i = Some r →
        ∃ tuple, tuples !! k = Some tuple
                 ∧ length tuple = length rN
                 ∧ tuple !! i = range_elements r !! k.
Proof.
  intros [Hbegin Hend]%zip_ctor_begin_end Hshortest Hall.
  destruct (range_for_from_iterators_at mask rN (zip_end z) Hend m m 0)
    as (tuples & Hrun & Hlength & Hcontents); [done..|].
  exists tuples. split_and!; [|done|].
  - intros fuel Hfuel. unfold range_for. rewrite Hbegin. by apply Hrun.
  - intros k i r Hk Hr.
    destruct (Hcontents k Hk) as (tuple & Htuple & Hfor). simpl in Hfor.
    exists tuple. split_and!; [done|by apply Forall2_length in Hfor|].
    destruct (Forall2_lookup_l _ _ _ _ _ Hfor Hr) as (x & -> & Hx). done.
Qed.

Lemma get_static_size_length {A} (r : range A) (n : nat) :
  static_size_is_length r →
  get_static_size r = integral_constant n → length (range_elements r) = n.
Proof. unfold static_size_is_length. intros Hr Hn. by rewrite Hn in Hr. Qed.

Lemma get_static_size_known {A} (rN : list (range A)) (n : nat) :
  (∀ r, r ∈ rN → static_size_is_length r) →
  integral_constant n ∈ get_static_size <$> rN →
  ∃ r, r ∈ rN ∧ length (range_elements r) = n.
Proof.
  intros Hfaithful (r & Hsize & Hr)%list_elem_of_fmap.
  exists r. split; [done|].
  by apply get_static_size_length; [apply Hfaithful|].
Qed.

Lemma zip_requires_same_length {A} mask (rN : list (range A)) (L : nat) :
  mask ≠ 0 → rN ≠ [] →
  (∀ r, r ∈ rN → length (range_elements r) = L) →
  (∀ r, r ∈ rN → static_size_is_length r) →
  zip_requires mask rN = true.
Proof.
  intros Hmask Hne Hlen Hfaithful. unfold zip_requires.
  destruct (Z.eqb_spec mask 0); [done|]. simpl.
  destruct rN as [|r0 rN']; [done|]. simpl (negb _ && _).
  unfold zip_static_size_bounds_check.
  destruct (minimum_static_size
              (get_examined_static_size mask (get_static_size <$> r0 :: rN')))
    as [[e|]|] eqn:Hex; [|done..].
  apply minimum_examined_static_size_bound in Hex
    as (a & -> & _ & Ha & He).
  apply get_static_size_known in Ha as (ra & Hra%Hlen & <-); [|done].
  apply get_static_size_known in He as (re & Hre%Hlen & <-); [|done].
  apply Nat.leb_le. lia.
Qed.

(** The static size of a tuple-like range is not its length, and the check
    reads the static size: two ranges of one element each are rejected when
    the selected one is a tuple-like range of tuple size 2. *)
Lemma zip_guide_rejects_on_tuple_size {A : Type} (a b : A) :
  zip_guide [tuple_like 2 [a]; c_array [b]] = None.
Proof. reflexivity. Qed.

(** C2.  Ranges of one length [L] zipped with the default selector: the
    loop from [begin()] to [end()] over the view ends, it yields [L] tuples,
    and tuple [k] holds in slot [i] the element of range [i] at offset [k].
    The view is constructed when there is at least one range and the static
    size of every range that has one is its number of elements. *)
Theorem zip_guide_same_length_lockstep
    {A : Type} (rN : list (range A)) (L : nat) :
  (∀ r, r ∈ rN → length (range_elements r) = L) →
  (∀ z : zip_view A,
      zip_guide rN = Some z →
      ∃ tuples : list (list A),
        (∀ fuel, (L < fuel)%nat → range_for fuel z = Finished tuples)
        ∧ length tuples = L
        ∧ ∀ k i r, (k < L)%nat → rN !! i = Some r →
            ∃ tuple, tuples !! k = Some tuple
                     ∧ length tuple = length rN
                     ∧ tuple !! i = range_elements r !! k)
  ∧ (rN ≠ [] → (∀ r, r ∈ rN → static_size_is_length r) →
     is_Some (zip_guide rN)).
Proof.
  intros Hlen. split.
  - intros z Hz. apply (range_for_lockstep 1 rN z L Hz).
    + apply zip_ctor_Some in Hz as [[_ Hne]%zip_requires_nonempty _].
      destruct rN as [|r0 rN']; [done|]. exists 0%nat, r0.
      split_and!; [done..|]. apply Hlen. left.
    + intros j r Hr%list_elem_of_lookup_2%Hlen. lia.
  - intros Hne Hfaithful. apply zip_ctor_of_requires.
    by apply (zip_requires_same_length 1 rN L).
Qed.

Lemma zip_guide_same_length_lockstep_witness :
  (∃ tuples : list (list nat),
      (∀ fuel, (3 < fuel)%nat →
         range_for fuel
           (ZipView nat
              (ZipIterator nat 1
                 [RangeIterator [1; 2; 3]%nat 0; RangeIterator [4; 5; 6]%nat 0])
              [end_iterator (RangeIterator [1; 2; 3]%nat 3); ignore])
         = Finished tuples)
      ∧ length tuples = 3%nat
      ∧ ∀ k i r, (k < 3)%nat →
          [c_array [1; 2; 3]%nat; tuple_like 7 [4; 5; 6]%nat] !! i = Some r →
          ∃ tuple, tuples !! k = Some tuple
                   ∧ length tuple = 2%nat
                   ∧ tuple !! i = range_elements r !! k)
  ∧ is_Some (zip_guide [c_array [1; 2; 3]%nat; dynamic_range [4; 5; 6]%nat]).
Proof.
  split.
  - apply (zip_guide_same_length_lockstep
             [c_array [1; 2; 3]%nat; tuple_like 7 [4; 5; 6]%nat] 3).
    + intros r Hr. apply elem_of_cons in Hr as [->|Hr]; [reflexivity|].
      apply elem_of_cons in Hr as [->|Hr]; [reflexivity|].
      inversion Hr.
    + reflexivity.
  - apply (zip_guide_same_length_lockstep
             [c_array [1; 2; 3]%nat; dynamic_range [4; 5; 6]%nat] 3).
    + intros r Hr. apply elem_of_cons in Hr as [->|Hr]; [reflexivity|].
      apply elem_of_cons in Hr as [->|Hr]; [reflexivity|].
      inversion Hr.
    + discriminate.
    + intros r Hr. apply elem_of_cons in Hr as [->|Hr]; [reflexivity|].
      apply elem_of_cons in Hr as [->|Hr]; [exact I|].
      inversion Hr.
Defined.

Lemma minimum_static_size_le (sizes : list static_size) (m k : nat) :
  minimum_static_size sizes = Some (integral_constant m) →
  integral_constant k ∈ sizes → (m ≤ k)%nat.
Proof.
  destruct sizes as [|size0 sizeN]; [done|]. simpl. intros [= Hm] Hk.
  destruct (minimum_static_size_from_some_known size0 sizeN k Hk)
    as (m' & Hm' & _ & Hmin).
  rewrite Hm in Hm'. injection Hm' as <-. by apply Hmin.
Qed.

(** The check passes when range 0 is selected and is the shortest, the
    others being of one length, and every static size is a length. *)
Lemma zip_requires_shortest_first
    {A} mask (r0 : range A) rN (short long : nat) :
  mask ≠ 0 →
  examine_zip_element mask 0 = true →
  length (range_elements r0) = short →
  (∀ r, r ∈ rN → length (range_elements r) = long) →
  (short ≤ long)%nat →
  (∀ r, r ∈ r0 :: rN → static_size_is_length r) →
  zip_requires mask (r0 :: rN) = true.
Proof.
  intros Hmask Hex0 Hshort Hlong Hle Hfaithful. unfold zip_requires.
  destruct (Z.eqb_spec mask 0); [done|]. simpl (negb _ && _).
  unfold zip_static_size_bounds_check.
  destruct (minimum_static_size
              (get_examined_static_size mask (get_static_size <$> r0 :: rN)))
    as [[e|]|] eqn:Hmin; [|done..].
  pose proof Hmin as Hbound.
  apply minimum_examined_static_size_bound in Hbound
    as (a & -> & Hae & Ha & He).
  apply Nat.leb_le.
  destruct (get_static_size r0) as [n0|] eqn:Hsize0.
  - apply get_static_size_length in Hsize0 as Hn0; [|apply Hfaithful; left].
    assert (e ≤ n0)%nat.
    { apply (minimum_static_size_le _ _ _ Hmin).
      apply list_elem_of_lookup. exists 0%nat.
      rewrite get_examined_static_size_lookup. simpl.
      by rewrite Hsize0, Hex0. }
    apply get_static_size_known in Ha as (ra & Hra & Hlena); [|done].
    apply elem_of_cons in Hra as [->|Hra%Hlong]; lia.
  - assert (∀ k, integral_constant k ∈ get_static_size <$> r0 :: rN →
                 k = long) as Hknown.
    { intros k (r & Hsize & Hr)%list_elem_of_fmap.
      apply elem_of_cons in Hr as [->|Hr]; [congruence|].
      symmetry in Hsize.
      apply get_static_size_length in Hsize; [|apply Hfaithful; by right].
      apply Hlong in Hr. lia. }
    apply Hknown in Ha, He. lia.
Qed.

(** Range 0 selected and the shortest, the others of one length: a view
    that was constructed is traversed in as many tuples as range 0 has
    elements, and the view is constructed when every static size is a
    length. *)
Lemma range_for_shortest_first
    {A} mask (r0 : range A) rN (short long : nat) :
  mask ≠ 0 →
  examine_zip_element mask 0 = true →
  length (range_elements r0) = short →
  (∀ r, r ∈ rN → length (range_elements r) = long) →
  (short ≤ long)%nat →
  (∀ z : zip_view A,
      zip_ctor mask (r0 :: rN) = Some z →
      ∃ tuples : list (list A),
        (∀ fuel, (short < fuel)%nat → range_for fuel z = Finished tuples)
        ∧ length tuples = short)
  ∧ ((∀ r, r ∈ r0 :: rN → static_size_is_length r) →
     is_Some (zip_ctor mask (r0 :: rN))).
Proof.
  intros Hmask Hex0 Hshort Hlong Hle. split.
  - intros z Hz.
    destruct (range_for_lockstep mask (r0 :: rN) z short Hz)
      as (tuples & Hrun & Hlength & _).
    + by exists 0%nat, r0.
    + intros j r Hr%list_elem_of_lookup_2.
      apply elem_of_cons in Hr as [->|Hr%Hlong]; lia.
    + by exists tuples.
  - intros Hfaithful. apply zip_ctor_of_requires.
    by apply (zip_requires_shortest_first mask r0 rN short long).
Qed.

(** The static-size check compares static sizes only: a selection that is
    safe because a selected range of unknown size is the shortest can still
    be rejected, so the statements on traversal are about views that were
    constructed. *)
Lemma zip_ctor_rejects_on_static_sizes_alone {A : Type} (a : A) :
  zip_ctor 3 [dynamic_range [a; a];
              c_array [a; a; a; a; a];
              c_array [a; a; a]] = None.
Proof. reflexivity. Qed.

(** C3.  When no range is shorter than the shortest selected range, the
    loop over a constructed view ends and yields as many tuples as the
    shortest selected range has elements.  Ranges of 2, 5 and 5 elements
    yield 2 tuples with range 0 selected and with ranges 0 and 1 selected;
    ranges of 3 and 5 elements yield 3 tuples with range 0 selected.  In
    these instances the view is constructed when the static size of every
    range that has one is its number of elements. *)
Theorem range_for_yields_shortest_selected {A : Type} :
  (∀ (mask : Z) (rN : list (range A)) (z : zip_view A) (m : nat),
      zip_ctor mask rN = Some z →
      (∃ j r, examine_zip_element mask j = true ∧ rN !! j = Some r
              ∧ length (range_elements r) = m) →
      (∀ j r, examine_zip_element mask j = true → rN !! j = Some r →
              (m ≤ length (range_elements r))%nat) →
      (∀ j r, examine_zip_element mask j = false → rN !! j = Some r →
              (m ≤ length (range_elements r))%nat) →
      ∃ tuples : list (list A),
        (∀ fuel, (m < fuel)%nat → range_for fuel z = Finished tuples)
        ∧ length tuples = m)
  ∧ (∀ (r0 r1 r2 : range A) (mask : Z),
        length (range_elements r0) = 2%nat →
        length (range_elements r1) = 5%nat →
        length (range_elements r2) = 5%nat →
        mask = 1 ∨ mask = 3 →
        (∀ z : zip_view A,
            zip_ctor mask [r0; r1; r2] = Some z →
            ∃ tuples : list (list A),
              (∀ fuel, (2 < fuel)%nat → range_for fuel z = Finished tuples)
              ∧ length tuples = 2%nat)
        ∧ (static_size_is_length r0 → static_size_is_length r1 →
           static_size_is_length r2 →
           is_Some (zip_ctor mask [r0; r1; r2])))
  ∧ (∀ r0 r1 : range A,
        length (range_elements r0) = 3%nat →
        length (range_elements r1) = 5%nat →
        (∀ z : zip_view A,
            zip_guide [r0; r1] = Some z →
            ∃ tuples : list (list A),
              (∀ fuel, (3 < fuel)%nat → range_for fuel z = Finished tuples)
              ∧ length tuples = 3%nat)
        ∧ (static_size_is_length r0 → static_size_is_length r1 →
           is_Some (zip_guide [r0; r1]))).
Proof.
  split_and!.
  - intros mask rN z m Hz Hshortest Hselected Hunselected.
    destruct (range_for_lockstep mask rN z m Hz Hshortest)
      as (tuples & Hrun & Hlength & _).
    + intros j r Hr.
      destruct (examine_zip_element mask j) eqn:Hex; eauto.
    + by exists tuples.
  - intros r0 r1 r2 mask H0 H1 H2 Hmask.
    destruct (range_for_shortest_first mask r0 [r1; r2] 2 5)
      as [Hrun Hctor];
      [destruct Hmask as [->| ->]; done
      |destruct Hmask as [->| ->]; done
      |done| |lia|].
    { intros r Hr. apply elem_of_cons in Hr as [->|Hr]; [done|].
      by apply list_elem_of_singleton in Hr as ->. }
    split; [done|]. intros Hf0 Hf1 Hf2. apply Hctor.
    intros r Hr. apply elem_of_cons in Hr as [->|Hr]; [done|].
    apply elem_of_cons in Hr as [->|Hr]; [done|].
    by apply list_elem_of_singleton in Hr as ->.
  - intros r0 r1 H0 H1.
    destruct (range_for_shortest_first 1 r0 [r1] 3 5) as [Hrun Hctor];
      [done..| |lia|].
    { by intros r ->%list_elem_of_singleton. }
    split; [done|]. intros Hf0 Hf1. apply Hctor.
    intros r Hr. apply elem_of_cons in Hr as [->|Hr]; [done|].
    by apply list_elem_of_singleton in Hr as ->.
Qed.

Lemma range_for_yields_shortest_selected_witness :
  (∃ tuples : list (list nat),
      (∀ fuel, (1 < fuel)%nat →
         range_for fuel
           (ZipView nat
              (ZipIterator nat 2
                 [RangeIterator [1; 2]%nat 0; RangeIterator [7]%nat 0])
              [ignore; end_iterator (RangeIterator [7]%nat 1)])
         = Finished tuples)
      ∧ length tuples = 1%nat)
  ∧ (∃ tuples : list (list nat),
        (∀ fuel, (2 < fuel)%nat →
           range_for fuel
             (ZipView nat
                (ZipIterator nat 3
                   [RangeIterator [1; 2]%nat 0;
                    RangeIterator [1; 2; 3; 4; 5]%nat 0;
                    RangeIterator [6; 7; 8; 9; 10]%nat 0])
                [end_iterator (RangeIterator [1; 2]%nat 2);
                 end_iterator (RangeIterator [1; 2; 3; 4; 5]%nat 5);
                 ignore])
           = Finished tuples)
        ∧ length tuples = 2%nat)
  ∧ is_Some (zip_ctor 3 [c_array [1; 2]%nat;
                         std_array [1; 2; 3; 4; 5]%nat;
                         dynamic_range [6; 7; 8; 9; 10]%nat]).
Proof.
  split_and!.
  - apply (proj1 (@range_for_yields_shortest_selected nat)
             2 [dynamic_range [1; 2]%nat; dynamic_range [7]%nat]).
    + reflexivity.
    + exists 1%nat, (dynamic_range [7]%nat). repeat split; reflexivity.
    + intros [|[|j]] r Hex Hr; try discriminate.
      injection Hr as <-. simpl. lia.
    + intros [|[|j]] r Hex Hr; try discriminate.
      injection Hr as <-. simpl. lia.
  - refine (proj1 (proj1 (proj2 (@range_for_yields_shortest_selected nat))
                     (c_array [1; 2]%nat)
                     (std_array [1; 2; 3; 4; 5]%nat)
                     (dynamic_range [6; 7; 8; 9; 10]%nat) 3
                     eq_refl eq_refl eq_refl (or_intror eq_refl)) _ eq_refl).
  - refine (proj2 (proj1 (proj2 (@range_for_yields_shortest_selected nat))
                     (c_array [1; 2]%nat)
                     (std_array [1; 2; 3; 4; 5]%nat)
                     (dynamic_range [6; 7; 8; 9; 10]%nat) 3
                     eq_refl eq_refl eq_refl (or_intror eq_refl))
              eq_refl eq_refl I).
Defined.

(** ** Further properties of the header *)

(** *** The constructed view *)

(** X1.  In a constructed view the begin tuple and the sentinel have one
    slot per range; the begin slot of a range is its start, and the
    sentinel slot is the end of the range when the mask selects the slot and
    [std::ignore] when it does not. *)
Theorem zip_ctor_slots
    {A : Type} (mask : Z) (rN : list (range A)) (z : zip_view A) :
  zip_ctor mask rN = Some z →
  examine_end_range (zip_begin z) = mask
  ∧ length (base_type (zip_begin z)) = length rN
  ∧ length (zip_end z) = length rN
  ∧ ∀ j r, rN !! j = Some r →
      base_type (zip_begin z) !! j = Some (range_begin r)
      ∧ zip_end z !! j
        = Some (if examine_zip_element mask j
                then end_iterator (range_end r) else ignore).
Proof.
  intros Hz. pose proof Hz as [Hbegin Hend]%zip_ctor_begin_end.
  apply zip_ctor_Some in Hz as [_ ->]. simpl in *.
  split_and!.
  - done.
  - apply length_fmap.
  - unfold capture_end_iterators.
    rewrite length_zip_with_r_eq; [done|]. by rewrite length_imap.
  - intros j r Hr. split.
    + by rewrite list_lookup_fmap, Hr.
    + by rewrite Hend, Hr.
Qed.

Lemma zip_ctor_slots_witness :
  zip_end
    (ZipView nat
       (ZipIterator nat 2
          [RangeIterator [1; 2]%nat 0; RangeIterator [7]%nat 0])
       [ignore; end_iterator (RangeIterator [7]%nat 1)]) !! 1%nat
  = Some (if examine_zip_element 2 1
          then end_iterator (range_end (dynamic_range [7]%nat)) else ignore).
Proof.
  apply (zip_ctor_slots 2 [dynamic_range [1; 2]%nat; dynamic_range [7]%nat]
           (ZipView nat
              (ZipIterator nat 2
                 [RangeIterator [1; 2]%nat 0; RangeIterator [7]%nat 0])
              [ignore; end_iterator (RangeIterator [7]%nat 1)])
           eq_refl).
  reflexivity.
Defined.

Lemma operator_incr_iter_iterators_at {A} mask (rN : list (range A)) k :
  Nat.iter k operator_incr (ZipIterator A mask (iterators_at rN 0))
  = ZipIterator A mask (iterators_at rN k).
Proof.
  induction k as [|k IH]; simpl; [done|].
  by rewrite IH, operator_incr_iterators_at.
Qed.

(** X2.  In a constructed view, the iterator reached from [begin()] by [k]
    advances compares equal to [end()] exactly when some selected range has
    exactly [k] elements: the comparison is an equality of positions, so an
    iterator that has stepped over the end of every selected range is not
    equal to [end()] any more.  With an empty selected range [begin()] is
    [end()] and the loop ends at once with no tuple. *)
Theorem operator_eq_after_advances
    {A : Type} (mask : Z) (rN : list (range A)) (z : zip_view A) :
  zip_ctor mask rN = Some z →
  (∀ k,
      operator_eq (Nat.iter k operator_incr (zip_begin z)) (zip_end z) = true
      ↔ ∃ j r, examine_zip_element mask j = true ∧ rN !! j = Some r
               ∧ length (range_elements r) = k)
  ∧ ((∃ j r, examine_zip_element mask j = true ∧ rN !! j = Some r
             ∧ range_elements r = []) →
     ∀ fuel, range_for (S fuel) z = Finished []).
Proof.
  intros [Hbegin Hend]%zip_ctor_begin_end.
  assert (∀ k,
            operator_eq (Nat.iter k operator_incr (zip_begin z)) (zip_end z)
              = true
            ↔ ∃ j r, examine_zip_element mask j = true ∧ rN !! j = Some r
                     ∧ length (range_elements r) = k) as Hk.
  { intros k. rewrite Hbegin, operator_incr_iter_iterators_at.
    apply (operator_eq_iterators_at mask rN (zip_end z) Hend). }
  split; [done|].
  intros (j & r & Hex & Hr & Hnil) fuel.
  assert (operator_eq (zip_begin z) (zip_end z) = true) as Heq.
  { apply (Hk 0%nat). exists j, r. by rewrite Hnil. }
  unfold range_for. simpl. by rewrite Heq.
Qed.

Lemma operator_eq_after_advances_witness :
  range_for 1
    (ZipView nat
       (ZipIterator nat 1 [RangeIterator [] 0; RangeIterator [7]%nat 0])
       [end_iterator (RangeIterator [] 0); ignore])
  = Finished [].
Proof.
  refine (proj2 (operator_eq_after_advances 1
                   [dynamic_range []; dynamic_range [7]%nat]
                   (ZipView nat
                      (ZipIterator nat 1
                         [RangeIterator [] 0; RangeIterator [7]%nat 0])
                      [end_iterator (RangeIterator [] 0); ignore])
                   eq_refl) _ 0%nat).
  exists 0%nat, (dynamic_range []). repeat split; reflexivity.
Defined.

(** *** Reading *)

Lemma mapM_fmap_compose {B C D} (f : C → option D) (g : B → C) (l : list B) :
  mapM f (g <$> l) = mapM (f ∘ g) l.
Proof.
  induction l as [|x l IH]; csimpl; [done|].
  destruct (f (g x)); simpl; [|done]. f_equal. exact IH.
Qed.

(** X3.  [*i] is defined exactly when every slot, selected or not, stands
    inside its range; the tuple it gives has one component per slot, and
    component [N] is the element slot [N] points at. *)
Theorem operator_deref_defined_iff_in_bounds
    {A : Type} (i : zip_iterator A) :
  (is_Some (operator_deref i)
   ↔ ∀ N p, base_type i !! N = Some p →
            (offset p < length (underlying p))%nat)
  ∧ ∀ tuple, operator_deref i = Some tuple →
      length tuple = length (base_type i)
      ∧ ∀ N p, base_type i !! N = Some p →
               tuple !! N = underlying p !! offset p.
Proof.
  unfold operator_deref, dereference_iterator. split.
  - rewrite mapM_is_Some, Forall_lookup. unfold range_iterator_deref.
    split; intros Hall N p Hp; specialize (Hall N p Hp); simpl in *.
    + by apply lookup_lt_is_Some.
    + by apply lookup_lt_is_Some.
  - intros tuple Htuple%mapM_Some. split.
    + symmetry. by apply Forall2_length in Htuple.
    + intros N p Hp.
      destruct (Forall2_lookup_l _ _ _ _ _ Htuple Hp) as (x & -> & Hx).
      done.
Qed.

Lemma operator_deref_defined_iff_in_bounds_witness :
  length [10; 4]%nat = 2%nat
  ∧ ∀ N p,
      [RangeIterator [10; 20]%nat 0; RangeIterator [4; 5; 6]%nat 0] !! N
        = Some p →
      [10; 4]%nat !! N = underlying p !! offset p.
Proof.
  apply (proj2 (operator_deref_defined_iff_in_bounds
                  (ZipIterator nat 1
                     [RangeIterator [10; 20]%nat 0;
                      RangeIterator [4; 5; 6]%nat 0]))
           [10; 4]%nat).
  reflexivity.
Defined.

(** X4.  Advancing [k] times from [begin()] and reading gives, slot by
    slot, the elements at offset [k] of the ranges; the read is undefined
    as soon as one range, selected or not, has no element at offset [k]. *)
Theorem operator_deref_after_advances
    {A : Type} (mask : Z) (rN : list (range A)) (z : zip_view A) (k : nat) :
  zip_ctor mask rN = Some z →
  operator_deref (Nat.iter k operator_incr (zip_begin z))
  = mapM (λ r, range_elements r !! k) rN.
Proof.
  intros [_ ->]%zip_ctor_Some.
  rewrite operator_incr_iter. unfold operator_deref, dereference_iterator.
  simpl. rewrite <-list_fmap_compose, mapM_fmap_compose.
  apply mapM_ext. intros r. simpl.
  rewrite range_iterator_incr_iter. unfold range_iterator_deref. simpl.
  by rewrite Nat.add_0_r.
Qed.

Lemma operator_deref_after_advances_witness :
  operator_deref
    (Nat.iter 1 operator_incr
       (ZipIterator nat 1
          [RangeIterator [10; 20]%nat 0; RangeIterator [4; 5; 6]%nat 0]))
  = Some [20; 5]%nat.
Proof.
  apply (operator_deref_after_advances 1
           [c_array [10; 20]%nat; dynamic_range [4; 5; 6]%nat]
           (ZipView nat
              (ZipIterator nat 1
                 [RangeIterator [10; 20]%nat 0; RangeIterator [4; 5; 6]%nat 0])
              [end_iterator (RangeIterator [10; 20]%nat 2); ignore])
           1 eq_refl).
Defined.

(** *** Distance, again *)

(** X5.  The distance follows the advances of either operand: advancing
    the left operand adds one, advancing the right operand takes one away,
    swapping the operands negates it, and distances through a middle
    iterator add up. *)
Theorem operator_sub_follows_advances {A : Type} (l i : zip_iterator A) :
  operator_sub (operator_incr l) i = (λ d, d + 1) <$> operator_sub l i
  ∧ operator_sub l (operator_incr i) = (λ d, d - 1) <$> operator_sub l i
  ∧ operator_sub i l = Z.opp <$> operator_sub l i
  ∧ ∀ (m : zip_iterator A) (d1 d2 : Z),
      operator_sub l m = Some d1 → operator_sub m i = Some d2 →
      operator_sub l i = Some (d1 + d2).
Proof.
  unfold operator_sub, operator_incr, increment_iterator; simpl.
  rewrite !list_lookup_fmap.
  destruct (base_type l !! 0%nat) as [l0|], (base_type i !! 0%nat) as [i0|];
    simpl; split_and!; try done.
  - unfold range_iterator_sub; simpl. f_equal. lia.
  - unfold range_iterator_sub; simpl. f_equal. lia.
  - unfold range_iterator_sub. f_equal. lia.
  - intros m d1 d2. destruct (base_type m !! 0%nat) as [m0|]; [|done].
    unfold range_iterator_sub. intros [= <-] [= <-]. f_equal. lia.
  - intros m d1 d2. by destruct (base_type m !! 0%nat).
Qed.

Lemma operator_sub_follows_advances_witness :
  operator_sub
    (ZipIterator nat 1 [RangeIterator [1; 2; 3]%nat 3])
    (ZipIterator nat 1 [RangeIterator [1; 2; 3]%nat 0])
  = Some (1 + 2).
Proof.
  apply (operator_sub_follows_advances
           (ZipIterator nat 1 [RangeIterator [1; 2; 3]%nat 3])
           (ZipIterator nat 1 [RangeIterator [1; 2; 3]%nat 0])
         : _ ∧ _ ∧ _ ∧ _)
    with (m := ZipIterator nat 1 [RangeIterator [1; 2; 3]%nat 2]);
    reflexivity.
Defined.

(** *** The minimum of the static sizes, again *)

Lemma static_sizes_known_or_not (sizes : list static_size) :
  (∃ n, integral_constant n ∈ sizes) ∨ (∀ s, s ∈ sizes → s = nullptr_t).
Proof.
  induction sizes as [|[n|] sizes IH].
  - right. intros s Hs. by inversion Hs.
  - left. exists n. left.
  - destruct IH as [[n Hn]|Hall].
    + left. exists n. by right.
    + right. intros s [->|Hs]%elem_of_cons; [done|by apply Hall].
Qed.

(** X6.  The minimum does not depend on the order of the sizes: two lists
    with the same sizes in any order have the same minimum. *)
Theorem minimum_static_size_permutation (sizes sizes' : list static_size) :
  sizes ≡ₚ sizes' →
  minimum_static_size sizes = minimum_static_size sizes'.
Proof.
  intros Hperm.
  destruct sizes as [|size0 sizeN].
  { apply Permutation_nil_l in Hperm as ->. done. }
  destruct sizes' as [|size0' sizeN'].
  { by apply Permutation_nil_r in Hperm. }
  simpl. f_equal.
  destruct (static_sizes_known_or_not (size0 :: sizeN)) as [[n Hn]|Hall].
  - destruct (minimum_static_size_from_some_known size0 sizeN n Hn)
      as (m & -> & Hm & Hmin).
    rewrite Hperm in Hn.
    destruct (minimum_static_size_from_some_known size0' sizeN' n Hn)
      as (m' & -> & Hm' & Hmin').
    f_equal. apply Nat.le_antisymm.
    + apply Hmin. by rewrite Hperm.
    + apply Hmin'. by rewrite <-Hperm.
  - assert (∀ s, s ∈ size0' :: sizeN' → s = nullptr_t) as Hall'.
    { intros s Hs. apply Hall. by rewrite Hperm. }
    rewrite (Hall size0), (Hall' size0') by left.
    rewrite !minimum_static_size_from_unknown; [done| |].
    + intros s Hs. apply Hall'. by right.
    + intros s Hs. apply Hall. by right.
Qed.

Lemma minimum_static_size_permutation_witness :
  minimum_static_size [integral_constant 5; nullptr_t; integral_constant 2]
  = minimum_static_size [nullptr_t; integral_constant 2; integral_constant 5].
Proof.
  apply minimum_static_size_permutation.
  apply (Permutation_cons_append [nullptr_t; integral_constant 2]
           (integral_constant 5)).
Defined.

(** *** The static-size check, again *)

Lemma get_examined_static_size_elem mask (sizes : list static_size) e :
  integral_constant e ∈ get_examined_static_size mask sizes
  ↔ ∃ j, examine_zip_element mask j = true
         ∧ sizes !! j = Some (integral_constant e).
Proof.
  rewrite list_elem_of_lookup.
  split; intros (j & Hj); exists j.
  - rewrite get_examined_static_size_lookup in Hj.
    destruct (sizes !! j) as [size|]; [|done]. simpl in Hj.
    destruct (examine_zip_element mask j); [|done].
    by injection Hj as ->.
  - destruct Hj as [Hex Hj].
    by rewrite get_examined_static_size_lookup, Hj, Hex.
Qed.

Lemma zip_static_size_bounds_check_examined mask sizes e :
  zip_static_size_bounds_check mask sizes = true →
  minimum_static_size (get_examined_static_size mask sizes)
    = Some (integral_constant e) →
  (∃ j, examine_zip_element mask j = true
        ∧ sizes !! j = Some (integral_constant e))
  ∧ ∀ a, integral_constant a ∈ sizes → (e ≤ a)%nat.
Proof.
  intros Hcheck Hex. split.
  - apply get_examined_static_size_elem.
    destruct (get_examined_static_size mask sizes) as [|s0 sN]; [done|].
    injection Hex as Hex. by apply minimum_static_size_from_elem.
  - intros a' Ha'. unfold zip_static_size_bounds_check in Hcheck.
    rewrite Hex in Hcheck.
    destruct (minimum_static_size sizes) as [[a|]|] eqn:Hall; [|done..].
    apply Nat.leb_le in Hcheck.
    pose proof (minimum_static_size_le sizes a a' Hall Ha'). lia.
Qed.

(** X7.  The check passes exactly when there is a size at all and either no
    selected range has a static size, or some selected range has a static
    size that no static size of any range, selected or not, is below. *)
Theorem zip_static_size_bounds_check_iff
    (mask : Z) (sizes : list static_size) :
  zip_static_size_bounds_check mask sizes = true
  ↔ sizes ≠ []
    ∧ ((∀ j e, examine_zip_element mask j = true →
               sizes !! j = Some (integral_constant e) → False)
       ∨ ∃ j e, examine_zip_element mask j = true
                ∧ sizes !! j = Some (integral_constant e)
                ∧ ∀ a, integral_constant a ∈ sizes → (e ≤ a)%nat).
Proof.
  split.
  - intros Hcheck. split.
    { intros ->. done. }
    destruct (minimum_static_size (get_examined_static_size mask sizes))
      as [[e|]|] eqn:Hex.
    + right.
      destruct (zip_static_size_bounds_check_examined mask sizes e Hcheck Hex)
        as [(j & Hj & Hsize) Hleast].
      by exists j, e.
    + left. intros j e Hj Hsize.
      assert (integral_constant e ∈ get_examined_static_size mask sizes)
        as Hin by (apply get_examined_static_size_elem; eauto).
      destruct (get_examined_static_size mask sizes) as [|s0 sN];
        [by inversion Hin|].
      destruct (minimum_static_size_from_some_known s0 sN e Hin)
        as (m & Hm & _).
      simpl in Hex. congruence.
    + unfold zip_static_size_bounds_check in Hcheck. rewrite Hex in Hcheck.
      by destruct (minimum_static_size sizes).
  - intros [Hne Hcases]. unfold zip_static_size_bounds_check.
    destruct sizes as [|size0 sizeN] eqn:Hsizes; [done|]. rewrite <-Hsizes in *.
    assert (∃ all, minimum_static_size sizes = Some all) as [all Hall].
    { rewrite Hsizes. simpl. eauto. }
    assert (∃ ex, minimum_static_size (get_examined_static_size mask sizes)
                  = Some ex) as [ex Hex].
    { rewrite Hsizes. simpl. eauto. }
    rewrite Hall, Hex. destruct ex as [m|]; [|done].
    pose proof Hex as Hbound.
    apply minimum_examined_static_size_bound in Hbound
      as (a & Ha & Hle & Hina & Hinm).
    rewrite Hall in Ha. injection Ha as ->. apply Nat.leb_le.
    destruct Hcases as [Hnone|(j & e & Hj & Hsize & Hleast)].
    + exfalso.
      assert (integral_constant m ∈ get_examined_static_size mask sizes)
        as Hin.
      { destruct (get_examined_static_size mask sizes) as [|s0 sN];
          [done|].
        injection Hex as Hex. by apply minimum_static_size_from_elem. }
      apply get_examined_static_size_elem in Hin as (j & Hj & Hsize).
      by apply (Hnone j m).
    + assert (m ≤ e)%nat.
      { apply (minimum_static_size_le _ _ _ Hex).
        apply get_examined_static_size_elem. eauto. }
      specialize (Hleast a Hina). lia.
Qed.

Lemma zip_static_size_bounds_check_iff_witness :
  zip_static_size_bounds_check 2
    [integral_constant 7; integral_constant 3; nullptr_t] = true.
Proof.
  apply (proj2 (zip_static_size_bounds_check_iff 2
                  [integral_constant 7; integral_constant 3; nullptr_t])).
  split; [discriminate|]. right. exists 1%nat, 3%nat.
  split; [reflexivity|]. split; [reflexivity|].
  intros a Ha. apply elem_of_cons in Ha as [[= ->]|Ha]; [lia|].
  apply elem_of_cons in Ha as [[= ->]|Ha]; [lia|].
  apply elem_of_cons in Ha as [[=]|Ha]. inversion Ha.
Defined.

(** *** Traversal, again *)

Lemma least_of_list (l : list nat) :
  l ≠ [] → ∃ m, m ∈ l ∧ ∀ x, x ∈ l → (m ≤ x)%nat.
Proof.
  induction l as [|a l IH]; [done|]. intros _.
  destruct l as [|b l].
  - exists a. split; [left|]. by intros x ->%list_elem_of_singleton.
  - destruct IH as (m & Hm & Hleast); [done|].
    destruct (decide (a ≤ m)%nat).
    + exists a. split; [left|].
      intros x [->|Hx%Hleast]%elem_of_cons; lia.
    + exists m. split; [by right|].
      intros x [->|Hx%Hleast]%elem_of_cons; lia.
Qed.

(** Among the selected ranges, when there is one, one is the shortest. *)
Lemma shortest_selected_range {A} mask (rN : list (range A)) :
  (∃ j r, examine_zip_element mask j = true ∧ rN !! j = Some r) →
  ∃ m,
    (∃ j r, examine_zip_element mask j = true ∧ rN !! j = Some r
            ∧ length (range_elements r) = m)
    ∧ ∀ j r, examine_zip_element mask j = true → rN !! j = Some r →
             (m ≤ length (range_elements r))%nat.
Proof.
  intros (j0 & r0 & Hex0 & Hr0).
  set (lengths :=
         omap (λ jr : nat * range A,
                 if examine_zip_element mask jr.1
                 then Some (length (range_elements jr.2)) else None)
              (imap pair rN)).
  assert (∀ x, x ∈ lengths
               ↔ ∃ j r, examine_zip_element mask j = true ∧ rN !! j = Some r
                        ∧ length (range_elements r) = x) as Hlengths.
  { intros x. unfold lengths. rewrite list_elem_of_omap. split.
    - intros ([j r] & Hjr & Hx). simpl in Hx.
      apply list_elem_of_lookup in Hjr as (i & Hi).
      rewrite list_lookup_imap in Hi.
      destruct (rN !! i) as [r'|] eqn:Hr'; [|done].
      injection Hi as <- <-.
      destruct (examine_zip_element mask i) eqn:Hex; [|done].
      injection Hx as <-. by exists i, r'.
    - intros (j & r & Hex & Hr & <-). exists (j, r). simpl.
      rewrite Hex. split; [|done].
      apply list_elem_of_lookup. exists j.
      by rewrite list_lookup_imap, Hr. }
  destruct (least_of_list lengths) as (m & Hm & Hleast).
  { intros Hnil.
    assert (length (range_elements r0) ∈ lengths) as Hin
      by (apply Hlengths; eauto).
    rewrite Hnil in Hin. by inversion Hin. }
  exists m. split; [by apply Hlengths|].
  intros j r Hex Hr. apply Hleast, Hlengths. eauto.
Qed.

(** X8.  What the static-size check buys for arrays: in a view that was
    constructed, when the static size of every range that has one is its
    number of elements (as for C arrays and [std::array]), every range that
    is not selected has a static size and so has some selected range, the
    loop ends without reading outside any range, after as many tuples as the
    shortest selected range has elements. *)
Theorem range_for_static_sizes_safe
    {A : Type} (mask : Z) (rN : list (range A)) (z : zip_view A) :
  zip_ctor mask rN = Some z →
  (∀ r, r ∈ rN → static_size_is_length r) →
  (∀ j r, examine_zip_element mask j = false → rN !! j = Some r →
          ∃ n, get_static_size r = integral_constant n) →
  (∃ j r n, examine_zip_element mask j = true ∧ rN !! j = Some r
            ∧ get_static_size r = integral_constant n) →
  ∃ (m : nat) (tuples : list (list A)),
    (∀ fuel, (m < fuel)%nat → range_for fuel z = Finished tuples)
    ∧ length tuples = m
    ∧ (∃ j r, examine_zip_element mask j = true ∧ rN !! j = Some r
              ∧ length (range_elements r) = m)
    ∧ ∀ r, r ∈ rN → (m ≤ length (range_elements r))%nat.
Proof.
  intros Hz Hfaithful Hstatic (j & rj & nj & Hex & Hrj & Hnj).
  pose proof Hz as [Hreq _]%zip_ctor_Some.
  unfold zip_requires in Hreq.
  apply andb_true_iff in Hreq as [_ Hcheck].
  (* the selected range [j] has a static size, so the examined minimum is
     known, and the check bounds every static size by it *)
  assert (integral_constant nj
            ∈ get_examined_static_size mask (get_static_size <$> rN)) as Hin.
  { apply get_examined_static_size_elem. exists j. split; [done|].
    by rewrite list_lookup_fmap, Hrj, <-Hnj. }
  assert (∃ e, minimum_static_size
                 (get_examined_static_size mask (get_static_size <$> rN))
               = Some (integral_constant e)) as [e He].
  { destruct (get_examined_static_size mask (get_static_size <$> rN))
      as [|s0 sN]; [by inversion Hin|].
    destruct (minimum_static_size_from_some_known s0 sN nj Hin)
      as (e & Hm & _).
    exists e. simpl. by rewrite Hm. }
  destruct (zip_static_size_bounds_check_examined _ _ _ Hcheck He)
    as [(j' & Hj' & Hsize) Hleast].
  rewrite list_lookup_fmap in Hsize.
  destruct (rN !! j') as [r'|] eqn:Hr'; [|done].
  injection Hsize as Hsize.
  apply get_static_size_length in Hsize;
    [|by apply Hfaithful; apply list_elem_of_lookup_2 in Hr'].
  (* the shortest selected range is no longer than the selected range
     [j'], whose static size is the examined minimum *)
  destruct (shortest_selected_range mask rN) as (m & Hshortest & Hselected).
  { by exists j, rj. }
  assert (m ≤ e)%nat as Hme.
  { rewrite <-Hsize. by apply (Hselected j'). }
  assert (∀ i r, rN !! i = Some r → (m ≤ length (range_elements r))%nat)
    as Hall.
  { intros i r Hr. destruct (examine_zip_element mask i) eqn:Hi.
    - by apply (Hselected i).
    - destruct (Hstatic i r Hi Hr) as [n Hn].
      rewrite (get_static_size_length r n);
        [|by apply Hfaithful; apply list_elem_of_lookup_2 in Hr|done].
      assert (e ≤ n)%nat; [|lia]. apply Hleast.
      apply list_elem_of_fmap. exists r.
      split; [done|by apply list_elem_of_lookup_2 in Hr]. }
  destruct (range_for_lockstep mask rN z m Hz Hshortest Hall)
    as (tuples & Hrun & Hlength & _).
  exists m, tuples. split_and!; [done..|].
  intros r (i & Hi)%list_elem_of_lookup. by apply (Hall i).
Qed.

Lemma range_for_static_sizes_safe_witness :
  ∃ (m : nat) (tuples : list (list nat)),
    (∀ fuel, (m < fuel)%nat →
       range_for fuel
         (ZipView nat
            (ZipIterator nat 3
               [RangeIterator [1]%nat 0; RangeIterator [7; 8]%nat 0;
                RangeIterator [4; 5; 6]%nat 0])
            [end_iterator (RangeIterator [1]%nat 1);
             end_iterator (RangeIterator [7; 8]%nat 2); ignore])
       = Finished tuples)
    ∧ length tuples = m
    ∧ (∃ j r, examine_zip_element 3 j = true
              ∧ [dynamic_range [1]%nat; std_array [7; 8]%nat;
                 c_array [4; 5; 6]%nat] !! j = Some r
              ∧ length (range_elements r) = m)
    ∧ ∀ r, r ∈ [dynamic_range [1]%nat; std_array [7; 8]%nat;
                c_array [4; 5; 6]%nat] →
           (m ≤ length (range_elements r))%nat.
Proof.
  apply (range_for_static_sizes_safe 3
           [dynamic_range [1]%nat; std_array [7; 8]%nat;
            c_array [4; 5; 6]%nat]).
  - reflexivity.
  - intros r Hr. apply elem_of_cons in Hr as [->|Hr]; [exact I|].
    apply elem_of_cons in Hr as [->|Hr]; [reflexivity|].
    apply elem_of_cons in Hr as [->|Hr]; [reflexivity|]. inversion Hr.
  - intros [|[|[|j]]] r Hex Hr; try discriminate.
    injection Hr as <-. by exists 3%nat.
  - exists 1%nat, (std_array [7; 8]%nat), 2%nat. repeat split; reflexivity.
Defined.

Section unchecked_traversal.
Context {A : Type} (mask : Z) (rN : list (range A)) (e : zip_sentinel A).
Hypothesis sentinel :
  ∀ j, e !! j
       = (λ r, if examine_zip_element mask j
               then end_iterator (range_end r) else ignore) <$> rN !! j.

Lemma dereference_iterators_at_end (k : nat) (r : range A) :
  r ∈ rN → length (range_elements r) = k →
  dereference_iterator (iterators_at rN k) = None.
Proof.
  intros Hr Hlen. unfold dereference_iterator, iterators_at.
  destruct (mapM range_iterator_deref
              ((λ r, RangeIterator (range_elements r) k) <$> rN))
    as [tuple|] eqn:Htuple; [|done].
  assert (is_Some (mapM range_iterator_deref
                     ((λ r, RangeIterator (range_elements r) k) <$> rN)))
    as Hsome%mapM_is_Some_1 by eauto.
  rewrite Forall_fmap, Forall_forall in Hsome.
  destruct (Hsome r Hr) as [x Hx]. simpl in Hx.
  unfold range_iterator_deref in Hx; simpl in Hx.
  apply lookup_lt_Some in Hx. lia.
Qed.

(** From offset [k] the loop reads on until the shortest range ends, and
    there, no selected range having ended, it reads outside that range. *)
Lemma range_for_from_past_unselected_end (s n k : nat) :
  (k + n = s)%nat →
  (∃ r, r ∈ rN ∧ length (range_elements r) = s) →
  (∀ r, r ∈ rN → s ≤ length (range_elements r))%nat →
  (∀ j r, examine_zip_element mask j = true → rN !! j = Some r →
          s < length (range_elements r))%nat →
  ∀ fuel, (n < fuel)%nat →
    range_for_from fuel (ZipIterator A mask (iterators_at rN k)) e
    = UndefinedBehaviour.
Proof.
  intros Hk (rs & Hrs & Hlen) Hall Hselected. revert k Hk.
  assert (∀ k, (k ≤ s)%nat →
            operator_eq (ZipIterator A mask (iterators_at rN k)) e = false)
    as Hrunning.
  { intros k Hk.
    destruct (operator_eq (ZipIterator A mask (iterators_at rN k)) e)
      eqn:Heq; [|done].
    apply (operator_eq_iterators_at mask rN e sentinel) in Heq
      as (j & r & Hex & Hr & Hlength).
    specialize (Hselected j r Hex Hr). lia. }
  induction n as [|n IH]; intros k Hk [|fuel] Hfuel; try lia; simpl.
  - rewrite Hrunning by lia. unfold operator_deref; simpl.
    rewrite (dereference_iterators_at_end k rs); [done..|lia].
  - rewrite Hrunning by lia.
    destruct (dereference_iterators_at rN k) as (tuple & Htuple & _).
    { intros j r Hr%list_elem_of_lookup_2%Hall. lia. }
    unfold operator_deref; simpl. rewrite Htuple.
    rewrite operator_incr_iterators_at, IH by lia. done.
Qed.
End unchecked_traversal.

(** X9.  Nothing checks the ranges that the mask does not select: when the
    shortest range of a constructed view is shorter than every selected
    range, the loop reads outside that range before it can end. *)
Theorem range_for_past_unselected_end
    {A : Type} (mask : Z) (rN : list (range A)) (z : zip_view A) (s : nat) :
  zip_ctor mask rN = Some z →
  (∃ r, r ∈ rN ∧ length (range_elements r) = s) →
  (∀ r, r ∈ rN → s ≤ length (range_elements r))%nat →
  (∀ j r, examine_zip_element mask j = true → rN !! j = Some r →
          s < length (range_elements r))%nat →
  ∀ fuel, (s < fuel)%nat → range_for fuel z = UndefinedBehaviour.
Proof.
  intros [Hbegin Hend]%zip_ctor_begin_end Hshortest Hall Hselected fuel Hfuel.
  unfold range_for. rewrite Hbegin.
  by apply (range_for_from_past_unselected_end mask rN (zip_end z) Hend s s 0).
Qed.

Lemma range_for_past_unselected_end_witness :
  range_for 5
    (ZipView nat
       (ZipIterator nat 1
          [RangeIterator [1; 2; 3]%nat 0; RangeIterator [7]%nat 0])
       [end_iterator (RangeIterator [1; 2; 3]%nat 3); ignore])
  = UndefinedBehaviour.
Proof.
  apply (range_for_past_unselected_end 1
           [dynamic_range [1; 2; 3]%nat; dynamic_range [7]%nat]
           (ZipView nat
              (ZipIterator nat 1
                 [RangeIterator [1; 2; 3]%nat 0; RangeIterator [7]%nat 0])
              [end_iterator (RangeIterator [1; 2; 3]%nat 3); ignore])
           1).
  - reflexivity.
  - exists (dynamic_range [7]%nat). split; [right; left|reflexivity].
  - intros r Hr. apply elem_of_cons in Hr as [->|Hr]; [simpl; lia|].
    apply elem_of_cons in Hr as [->|Hr]; [simpl; lia|]. inversion Hr.
  - intros [|[|j]] r Hex Hr; try discriminate.
    injection Hr as <-. simpl. lia.
  - lia.
Defined.

Lemma operator_eq_without_selected_slot
    {A} (i : zip_iterator A) (e : zip_sentinel A) :
  (∀ j, (j < length (base_type i))%nat →
        examine_zip_element (examine_end_range i) j = false) →
  operator_eq i e = false.
Proof.
  intros Hnone. destruct (operator_eq i e) eqn:Heq; [|done].
  unfold operator_eq, index_sequence_type in Heq.
  apply compare_zip_iterators_true in Heq as (N & p & q & Hex & Hp & _).
  apply lookup_lt_Some in Hp. rewrite Hnone in Hex; done.
Qed.

Lemma range_for_from_without_selected_slot
    {A} (fuel : nat) (i : zip_iterator A) (e : zip_sentinel A) :
  (∀ j, (j < length (base_type i))%nat →
        examine_zip_element (examine_end_range i) j = false) →
  range_for_from fuel i e = OutOfFuel
  ∨ range_for_from fuel i e = UndefinedBehaviour.
Proof.
  revert i. induction fuel as [|fuel IH]; intros i Hnone; simpl; [by left|].
  rewrite operator_eq_without_selected_slot by done.
  destruct (operator_deref i) as [tuple|]; [|by right].
  destruct (IH (operator_incr i)) as [-> | ->]; [|by left|by right].
  unfold operator_incr, increment_iterator; simpl.
  by rewrite length_fmap.
Qed.

(** X10.  The requires-clause tests that the mask is not zero, not that it
    selects one of the ranges: in a view constructed with a mask whose set
    bits all lie at or above the number of ranges, no iterator reached from
    [begin()] ever compares equal to [end()], and the loop never ends at the
    sentinel. *)
Theorem range_for_never_ends_without_selected_range
    {A : Type} (mask : Z) (rN : list (range A)) (z : zip_view A) :
  zip_ctor mask rN = Some z →
  (∀ j, (j < length rN)%nat → examine_zip_element mask j = false) →
  (∀ k, operator_eq (Nat.iter k operator_incr (zip_begin z)) (zip_end z)
        = false)
  ∧ ∀ fuel, range_for fuel z = OutOfFuel
            ∨ range_for fuel z = UndefinedBehaviour.
Proof.
  intros [_ ->]%zip_ctor_Some Hnone. split.
  - intros k. apply operator_eq_without_selected_slot.
    rewrite operator_incr_iter. simpl. rewrite !length_fmap. done.
  - intros fuel. apply range_for_from_without_selected_slot.
    simpl. by rewrite length_fmap.
Qed.

Lemma range_for_never_ends_without_selected_range_witness :
  range_for 3
    (ZipView nat
       (ZipIterator nat 4
          [RangeIterator [1; 2]%nat 0; RangeIterator [7]%nat 0])
       [ignore; ignore])
  = OutOfFuel
  ∨ range_for 3
      (ZipView nat
         (ZipIterator nat 4
            [RangeIterator [1; 2]%nat 0; RangeIterator [7]%nat 0])
         [ignore; ignore])
    = UndefinedBehaviour.
Proof.
  refine (proj2 (range_for_never_ends_without_selected_range 4
                   [dynamic_range [1; 2]%nat; c_array [7]%nat]
                   (ZipView nat
                      (ZipIterator nat 4
                         [RangeIterator [1; 2]%nat 0; RangeIterator [7]%nat 0])
                      [ignore; ignore])
                   eq_refl _) 3%nat).
  intros [|[|j]] Hj; [reflexivity|reflexivity|simpl in Hj; lia].
Defined.

(** X11.  The mask reaches the first 32 ranges only: whatever its value, a
    range at index 32 or above is not selected, its slot of the sentinel is
    [std::ignore], and its static size is left out of the examined sizes. *)
Theorem zip_ctor_index_32_not_selected
    {A : Type} (mask : Z) (rN : list (range A)) (z : zip_view A)
    (j : nat) (r : range A) :
  zip_ctor mask rN = Some z →
  (32 ≤ j)%nat →
  rN !! j = Some r →
  examine_zip_element mask j = false
  ∧ zip_end z !! j = Some ignore
  ∧ get_examined_static_size mask (get_static_size <$> rN) !! j
    = Some nullptr_t.
Proof.
  intros [_ Hend]%zip_ctor_begin_end Hj Hr.
  assert (examine_zip_element mask j = false) as Hex.
  { unfold examine_zip_element.
    destruct (Nat.ltb_spec j 32) as [?|_]; [lia|done]. }
  split_and!; [done| |].
  - by rewrite Hend, Hr, Hex.
  - by rewrite get_examined_static_size_lookup, list_lookup_fmap, Hr, Hex.
Qed.

Lemma zip_ctor_index_32_not_selected_witness :
  examine_zip_element (2 ^ 32 - 1) 32 = false
  ∧ zip_end
      (ZipView nat
         (ZipIterator nat (2 ^ 32 - 1) (replicate 33 (RangeIterator [5]%nat 0)))
         (replicate 32 (end_iterator (RangeIterator [5]%nat 1)) ++ [ignore]))
      !! 32%nat = Some ignore
  ∧ get_examined_static_size (2 ^ 32 - 1)
      (get_static_size <$> replicate 33 (c_array [5]%nat)) !! 32%nat
    = Some nullptr_t.
Proof.
  apply (zip_ctor_index_32_not_selected (2 ^ 32 - 1)
           (replicate 33 (c_array [5]%nat))
           (ZipView nat
              (ZipIterator nat (2 ^ 32 - 1)
                 (replicate 33 (RangeIterator [5]%nat 0)))
              (replicate 32 (end_iterator (RangeIterator [5]%nat 1))
                 ++ [ignore]))
           32 (c_array [5]%nat)).
  - vm_compute. reflexivity.
  - lia.
  - reflexivity.
Defined.

(** X12.  The check reads the tuple size of a tuple-like range, not its
    length: a selected tuple-like range that is longer than an unselected C
    array, with a tuple size that is at most the length of the array, is
    accepted, and the loop reads outside the array. *)
Theorem range_for_tuple_like_past_array_end
    {A : Type} (n : nat) (l0 l1 : list A) :
  (n ≤ length l1)%nat →
  (length l1 < length l0)%nat →
  ∃ z : zip_view A,
    zip_guide [tuple_like n l0; c_array l1] = Some z
    ∧ ∀ fuel, (length l1 < fuel)%nat → range_for fuel z = UndefinedBehaviour.
Proof.
  intros Hn Hlen.
  assert (examine_zip_element 1 0 = true) as Hex0 by reflexivity.
  assert (∀ j, examine_zip_element 1 (S j) = true → False) as Hex.
  { intros j. rewrite examine_zip_element_testbit.
    intros [_ Hbit]%andb_true_iff.
    change (uint32 1) with (2 ^ 0) in Hbit.
    rewrite Z.pow2_bits_eqb in Hbit by lia. apply Z.eqb_eq in Hbit. lia. }
  destruct (zip_ctor_of_requires 1 [tuple_like n l0; c_array l1]) as [z Hz].
  { assert (examine_zip_element 1 1 = false) as Hex1 by reflexivity.
    unfold zip_requires, zip_static_size_bounds_check.
    change (get_static_size <$> [tuple_like n l0; c_array l1])
      with [integral_constant n; integral_constant (length l1)].
    change (get_examined_static_size 1
              [integral_constant n; integral_constant (length l1)])
      with [if examine_zip_element 1 0
            then integral_constant n else nullptr_t;
            if examine_zip_element 1 1
            then integral_constant (length l1) else nullptr_t].
    rewrite Hex0, Hex1.
    cbn [minimum_static_size minimum_static_size_from].
    destruct (Nat.ltb_spec n (length l1)); apply Nat.leb_le; lia. }
  exists z. split; [done|]. intros fuel Hfuel.
  pose proof Hz as [Hbegin Hend]%zip_ctor_begin_end.
  unfold range_for. rewrite Hbegin.
  apply (range_for_from_past_unselected_end 1
           [tuple_like n l0; c_array l1] (zip_end z) Hend
           (length l1) (length l1) 0); [done| | | |done].
  - exists (c_array l1). split; [right; left|done].
  - intros r Hr. apply elem_of_cons in Hr as [->|Hr]; [simpl; lia|].
    by apply list_elem_of_singleton in Hr as ->.
  - intros [|j] r Hj Hr; [|by apply Hex in Hj].
    injection Hr as <-. done.
Qed.

Lemma range_for_tuple_like_past_array_end_witness :
  ∃ z : zip_view nat,
    zip_guide [tuple_like 2 [1; 2; 3; 4; 5]%nat; c_array [7; 8; 9]%nat]
    = Some z
    ∧ ∀ fuel, (3 < fuel)%nat → range_for fuel z = UndefinedBehaviour.
Proof.
  apply (range_for_tuple_like_past_array_end 2
           [1; 2; 3; 4; 5]%nat [7; 8; 9]%nat); simpl; lia.
Defined.
